(** * Circuit topology detection and SPICE netlist generation

    A shallow embedding of [src/vision/topology/connection_detector.py]
    and [src/vision/topology/netlist_generator.py], with the properties
    the specification states about them.

    Conventions of the embedding:
    - pixel coordinates and bounding boxes are integers ([Z]); a test
      [np.sqrt(dx**2 + dy**2) < t] on integer coordinates is written
      [dx^2 + dy^2 < t^2], which is the same test since the square root is
      monotone and correctly rounded;
    - the coordinates of a detected line are NumPy [int32] scalars, whose
      arithmetic wraps around: [Int32] writes the wrap-around out, and
      the functions that compute on such coordinates are given on them;
    - a Python [float] is a binary64 number: Rocq's primitive [float], with
      its additions and comparisons;
    - Python lists are lists, [set(...)] is a [gset], and [list(set(...))]
      is [elements] of it: its order is not specified by Python, and no
      statement below depends on it;
    - [int(a / b)] on integers truncates towards zero: [Z.quot];
    - a [while] loop is a fixpoint on a fuel counter that returns [None]
      when the fuel runs out; the loop is then shown to finish within the
      fuel it is given. *)

From Stdlib Require Import ZArith Ascii String Floats.
From stdpp Require Import gmap strings list pretty relations numbers.

Set Warnings "-register-all,-clear-no-such-hyp,-inexact-float".

Open Scope string_scope.
Open Scope list_scope.

(** ** Data model of [connection_detector.py] *)

Definition Point : Type := Z * Z.

(** A detected component, as the detector reads it: [component['id']],
    [component['bbox']] and [component.get('component_type', 'unknown')]. *)
Module Component.
Record t := mk {
  id : string;
  bbox : Z * Z * Z * Z;
  component_type : option string
}.
End Component.

(** The pin dictionaries built by [_extract_component_pins]. *)
Module Pin.
Record t := mk {
  pin_id : string;
  component_id : string;
  position : Point;
  pin_number : nat;
  component_type : string
}.
End Pin.

(** The dictionaries built by [_classify_line_segments]. *)
Module Classified.
Record t := mk {
  id : string;
  start_point : Point;
  end_point : Point;
  connection_type : string;
  confidence : float;
  length : float;
  angle : float;
  thickness : float;
  continuity : float
}.
End Classified.

(** [@dataclass Connection]. *)
Module Connection.
Record t := mk {
  start_point : Point;
  end_point : Point;
  path : list Point;
  connection_type : string;
  confidence : float;
  connected_components : list string
}.
End Connection.

(** [@dataclass Node]. *)
Module Node.
Record t := mk {
  position : Point;
  node_id : string;
  connected_components : list string;
  connection_count : nat
}.
End Node.

(** [list(set(l))] on strings. *)
Definition list_set (l : list string) : list string :=
  elements (list_to_set l : gset string).

(** The squared Euclidean distance of two points. *)
Definition dist_sq (p q : Point) : Z :=
  ((p.1 - q.1) ^ 2 + (p.2 - q.2) ^ 2)%Z.

(** ** [_find_connected_pins]: breadth-first search from a pin *)

Module Bfs.
(** The three variables the loop updates. *)
Record state := mk {
  connected_pins : list Pin.t;
  processed : gset string;
  queue : list Pin.t
}.

(** The three updates of the innermost [if]:
    [connected_pins.append(pin); processed.add(pin_id); queue.append(pin)]. *)
Definition add_pin (st : state) (pin : Pin.t) : state :=
  {| connected_pins := connected_pins st ++ [pin];
     processed := processed st ∪ {[Pin.pin_id pin]};
     queue := queue st ++ [pin] |}.

(** [for pin in all_pins: if pin.component_id == comp_id and
    pin.pin_id not in processed: ...] *)
Definition visit_pin (comp_id : string) (st : state) (pin : Pin.t) : state :=
  if decide (Pin.component_id pin = comp_id ∧ Pin.pin_id pin ∉ processed st)
  then add_pin st pin else st.

Definition visit_pins (all_pins : list Pin.t) (comp_id : string)
    (st : state) : state :=
  foldl (visit_pin comp_id) st all_pins.

(** [for comp_id in connection.connected_components:
    if comp_id != current_pin.component_id: ...] *)
Definition visit_component (all_pins : list Pin.t) (current_pin : Pin.t)
    (st : state) (comp_id : string) : state :=
  if decide (comp_id ≠ Pin.component_id current_pin)
  then visit_pins all_pins comp_id st else st.

(** [for connection in connections:
    if current_pin.component_id in connection.connected_components: ...] *)
Definition visit_connection (all_pins : list Pin.t) (current_pin : Pin.t)
    (st : state) (connection : Connection.t) : state :=
  if decide (Pin.component_id current_pin
               ∈ Connection.connected_components connection)
  then foldl (visit_component all_pins current_pin) st
         (Connection.connected_components connection)
  else st.

(** The body of the [while] loop once [current_pin = queue.pop(0)]. *)
Definition visit (connections : list Connection.t) (all_pins : list Pin.t)
    (current_pin : Pin.t) (st : state) : state :=
  foldl (visit_connection all_pins current_pin) st connections.

(** [while queue: current_pin = queue.pop(0); ...] *)
Fixpoint loop (fuel : nat) (connections : list Connection.t)
    (all_pins : list Pin.t) (st : state) : option state :=
  match queue st with
  | [] => Some st
  | current_pin :: rest =>
      match fuel with
      | O => None
      | S fuel' =>
          loop fuel' connections all_pins
            (visit connections all_pins current_pin
               {| connected_pins := connected_pins st;
                  processed := processed st;
                  queue := rest |})
      end
  end.

Definition init (start_pin : Pin.t) : state :=
  {| connected_pins := [start_pin];
     processed := {[Pin.pin_id start_pin]};
     queue := [start_pin] |}.
End Bfs.

(** [_find_connected_pins]; every pop but the first is of a pin appended
    with an identifier new to [processed], so one more than the number of
    pins is enough fuel ([find_connected_pins_returns]). *)
Definition find_connected_pins_opt (start_pin : Pin.t)
    (connections : list Connection.t) (all_pins : list Pin.t)
    : option (list Pin.t) :=
  Bfs.connected_pins <$>
    Bfs.loop (S (length all_pins)) connections all_pins (Bfs.init start_pin).

Definition find_connected_pins (start_pin : Pin.t)
    (connections : list Connection.t) (all_pins : list Pin.t) : list Pin.t :=
  default [] (find_connected_pins_opt start_pin connections all_pins).

(** ** [_get_component_pin_locations] and [_extract_component_pins]

    The image argument is not read by either function and is left out. *)

(** [int((a + b) / 2)]. *)
Definition int_mid (a b : Z) : Z := Z.quot (a + b) 2.

(** [int(a + (i + 1) * extent / (num_pins + 1))] for integers. *)
Definition int_spread (a extent : Z) (num_pins i : nat) : Z :=
  Z.quot (a * (Z.of_nat num_pins + 1) + (Z.of_nat i + 1) * extent)
         (Z.of_nat num_pins + 1).

(** [max(2, int(extent / 20))]. *)
Definition estimate_num_pins (extent : Z) : nat :=
  Z.to_nat (Z.max 2 (Z.quot extent 20)).

Definition get_component_pin_locations (bbox : Z * Z * Z * Z)
    (comp_type : string) : list Point :=
  let '(x1, y1, x2, y2) := bbox in
  let center_x := int_mid x1 x2 in
  let center_y := int_mid y1 y2 in
  if decide (comp_type ∈ ["resistor"; "inductor"]) then
    [(x1, center_y); (x2, center_y)]
  else if decide (comp_type = "capacitor") then
    [(x1, center_y); (x2, center_y)]
  else if decide (comp_type ∈ ["transistor"; "op_amp"; "ic"]) then
    let width := (x2 - x1)%Z in
    let height := (y2 - y1)%Z in
    if decide (height < width)%Z then
      let num_pins := estimate_num_pins width in
      foldl (λ pins i,
               let pin_x := int_spread x1 width num_pins i in
               pins ++ [(pin_x, y1); (pin_x, y2)])
            [] (seq 0 num_pins)
    else
      let num_pins := estimate_num_pins height in
      foldl (λ pins i,
               let pin_y := int_spread y1 height num_pins i in
               pins ++ [(x1, pin_y); (x2, pin_y)])
            [] (seq 0 num_pins)
  else if decide (comp_type = "voltage_source") then
    [(center_x, y1); (center_x, y2)]
  else if decide (comp_type = "ground") then
    [(center_x, y1)]
  else
    [(x1, center_y); (x2, center_y)].

(** [f'{comp_id}_pin_{pin_idx}'] *)
Definition make_pin_id (comp_id : string) (pin_idx : nat) : string :=
  comp_id +:+ "_pin_" +:+ pretty pin_idx.

Definition make_pin (comp_id comp_type : string) (pin_idx : nat)
    (pin_pos : Point) : Pin.t :=
  {| Pin.pin_id := make_pin_id comp_id pin_idx;
     Pin.component_id := comp_id;
     Pin.position := pin_pos;
     Pin.pin_number := pin_idx + 1;
     Pin.component_type := comp_type |}.

Definition extract_component_pins (detected_components : list Component.t)
    : list Pin.t :=
  foldl (λ component_pins component,
           let comp_id := Component.id component in
           let comp_type := default "unknown" (Component.component_type component) in
           let pins := get_component_pin_locations (Component.bbox component) comp_type in
           component_pins ++ imap (make_pin comp_id comp_type) pins)
        [] detected_components.

(** ** [_build_connection_network]

    The builder on exact integers: what the source computes as long as no
    [int32] operation wraps around. The arithmetic of NumPy is written out
    in [build_connection_network_int32] below; the two agree on the
    coordinates of an image of at most 32768 by 32768 pixels. *)

(** [proximity_threshold = 25]; the test is [dist < proximity_threshold]. *)
Definition proximity_threshold : Z := 25.

(** [dist_start < proximity_threshold or dist_end < proximity_threshold] *)
Definition near (conn : Classified.t) (pin : Pin.t) : Prop :=
  (dist_sq (Classified.start_point conn) (Pin.position pin) < proximity_threshold ^ 2)%Z
  ∨ (dist_sq (Classified.end_point conn) (Pin.position pin) < proximity_threshold ^ 2)%Z.

#[global] Instance near_dec conn pin : Decision (near conn pin).
Proof. unfold near. apply _. Defined.

(** The inner loop: the owning component of every near pin, in pin order. *)
Definition nearby_components (conn : Classified.t) (component_pins : list Pin.t)
    : list string :=
  foldl (λ connected_components pin,
           if decide (near conn pin)
           then connected_components ++ [Pin.component_id pin]
           else connected_components)
        [] component_pins.

Definition make_connection (conn : Classified.t)
    (connected_components : list string) : Connection.t :=
  {| Connection.start_point := Classified.start_point conn;
     Connection.end_point := Classified.end_point conn;
     Connection.path := [Classified.start_point conn; Classified.end_point conn];
     Connection.connection_type := Classified.connection_type conn;
     Connection.confidence := Classified.confidence conn;
     Connection.connected_components := connected_components |}.

(** One round of the outer loop. *)
Definition add_connection (component_pins : list Pin.t)
    (connections : list Connection.t) (conn : Classified.t)
    : list Connection.t :=
  let connected_components := list_set (nearby_components conn component_pins) in
  if decide (1 ≤ length connected_components)%nat
  then connections ++ [make_connection conn connected_components]
  else connections.

(** The third argument of the source, [detected_components], is not read. *)
Definition build_connection_network (electrical_connections : list Classified.t)
    (component_pins : list Pin.t) (detected_components : list Component.t)
    : list Connection.t :=
  foldl (add_connection component_pins) [] electrical_connections.

(** ** [_identify_electrical_nodes] *)

Definition sum_Z (l : list Z) : Z := foldr Z.add 0%Z l.

(** The [Node] built from a non-empty list of connected pins. *)
Definition make_node (node_counter : nat) (connected_pins : list Pin.t) : Node.t :=
  let positions := Pin.position <$> connected_pins in
  let n := Z.of_nat (length positions) in
  {| Node.position := (Z.quot (sum_Z (fst <$> positions)) n,
                       Z.quot (sum_Z (snd <$> positions)) n);
     Node.node_id := "node_" +:+ pretty node_counter;
     Node.connected_components := list_set (Pin.component_id <$> connected_pins);
     Node.connection_count := length connected_pins |}.

Module Resolver.
(** The variables of the loop. A [Node] does not keep the pins it was
    built from; [nodes] pairs each node with its [connected_pins] so that
    membership of a pin in a node can be stated. *)
Record state := mk {
  nodes : list (Node.t * list Pin.t);
  processed_pins : gset string;
  node_counter : nat
}.

Definition step (connections : list Connection.t) (component_pins : list Pin.t)
    (st : state) (pin : Pin.t) : state :=
  if decide (Pin.pin_id pin ∈ processed_pins st) then st
  else
    let connected_pins := find_connected_pins pin connections component_pins in
    match connected_pins with
    | [] => st
    | _ =>
        {| nodes := nodes st ++ [(make_node (node_counter st) connected_pins,
                                  connected_pins)];
           processed_pins :=
             foldl (λ s p, s ∪ {[Pin.pin_id p]}) (processed_pins st) connected_pins;
           node_counter := node_counter st + 1 |}
    end.

Definition init : state :=
  {| nodes := []; processed_pins := ∅; node_counter := 0 |}.

Definition run (connections : list Connection.t) (component_pins : list Pin.t)
    : state :=
  foldl (step connections component_pins) init component_pins.
End Resolver.

(** The nodes, each with the pins folded into it. *)
Definition electrical_nodes_with_pins (connections : list Connection.t)
    (component_pins : list Pin.t) : list (Node.t * list Pin.t) :=
  Resolver.nodes (Resolver.run connections component_pins).

Definition identify_electrical_nodes (connections : list Connection.t)
    (component_pins : list Pin.t) : list Node.t :=
  fst <$> electrical_nodes_with_pins connections component_pins.

(** The pin groups behind the nodes, in node order. *)
Definition node_groups (connections : list Connection.t)
    (component_pins : list Pin.t) : list (list Pin.t) :=
  snd <$> electrical_nodes_with_pins connections component_pins.

(** ** NumPy's [int32]

    The rows of [cv2.HoughLinesP] are [np.int32], and so are the
    coordinates of the merged lines and of the classified segments. An
    operation on two [int32] scalars, or (NumPy 2) on an [int32] scalar and
    a Python integer that fits, gives an [int32]: the result is the exact
    one brought back into the range by adding or removing multiples of
    [2^32]. *)
Module Int32.
Definition min_value : Z := (- 2 ^ 31)%Z.
Definition max_value : Z := (2 ^ 31 - 1)%Z.

Definition in_range (z : Z) : Prop := (min_value ≤ z ≤ max_value)%Z.

#[global] Instance in_range_dec z : Decision (in_range z).
Proof. unfold in_range. apply _. Defined.

Definition wrap (z : Z) : Z := ((z + 2 ^ 31) `mod` 2 ^ 32 - 2 ^ 31)%Z.

(** [a + b], [a - b] and [a ** 2] *)
Definition add (a b : Z) : Z := wrap (a + b).
Definition sub (a b : Z) : Z := wrap (a - b).
Definition square (a : Z) : Z := wrap (a * a).
End Int32.

(** ** [_classify_line_segments]

    What the classifier gets from NumPy and from sampling the image is a
    parameter of the section: the square root of an [int32], the angle
    [np.arctan2(dy, dx) * 180 / np.pi] of two [int32], and the two image
    measurements [_estimate_line_thickness] and [_check_line_continuity].
    They give floats; the square root of a negative number is a NaN, and a
    comparison with a NaN is false. *)

Definition Segment : Type := Z * Z * Z * Z.

(** Python's [min(a, b)]: [b] when [b < a], else [a]. *)
Definition py_min (a b : float) : float := if PrimFloat.ltb b a then b else a.

(** [abs(angle) < 15 or abs(angle - 90) < 15 or abs(angle - 180) < 15] *)
Definition axis_aligned (angle : float) : bool :=
  PrimFloat.ltb (PrimFloat.abs angle) 15
  || PrimFloat.ltb (PrimFloat.abs (PrimFloat.sub angle 90)) 15
  || PrimFloat.ltb (PrimFloat.abs (PrimFloat.sub angle 180)) 15.

(** [thickness <= 3 and continuity > 0.8] *)
Definition thin_and_continuous (thickness continuity : float) : bool :=
  PrimFloat.leb thickness 3 && PrimFloat.ltb 0.8 continuity.

(** The confidence before the final [min(confidence, 1.0)]: the three
    [confidence += ...] in the order of the source. *)
Definition raw_confidence (length angle thickness continuity : float) : float :=
  let confidence := 0.7%float in
  let confidence :=
    if axis_aligned angle then PrimFloat.add confidence 0.2 else confidence in
  let confidence :=
    if PrimFloat.ltb 30 length then PrimFloat.add confidence 0.1
    else confidence in
  let confidence :=
    if thin_and_continuous thickness continuity
    then PrimFloat.add confidence 0.1 else confidence in
  confidence.

Section Classifier.
Context {Image : Type}.
Variable np_sqrt : Z → float.
Variable arctan2_degrees : Z → Z → float.
Variable estimate_line_thickness : Image → Segment → float.
Variable check_line_continuity : Image → Segment → float.

(** The body of the loop, for the segment at index [i]. *)
Definition classify_segment (image : Image) (i : nat) (seg : Segment)
    : Classified.t :=
  let '(x1, y1, x2, y2) := seg in
  let length :=
    np_sqrt (Int32.add (Int32.square (Int32.sub x2 x1))
                       (Int32.square (Int32.sub y2 y1))) in
  let angle := arctan2_degrees (Int32.sub y2 y1) (Int32.sub x2 x1) in
  let thickness := estimate_line_thickness image seg in
  let continuity := check_line_continuity image seg in
  {| Classified.id := "conn_" +:+ pretty i;
     Classified.start_point := (x1, y1);
     Classified.end_point := (x2, y2);
     Classified.connection_type := "wire";
     Classified.confidence :=
       py_min (raw_confidence length angle thickness continuity) 1;
     Classified.length := length;
     Classified.angle := angle;
     Classified.thickness := thickness;
     Classified.continuity := continuity |}.

Definition classify_line_segments (line_segments : list Segment)
    (image : Image) : list Classified.t :=
  foldl (λ classified_connections '(i, seg),
           classified_connections ++ [classify_segment image i seg])
        [] (imap pair line_segments).
End Classifier.

(** ** Topology analysis: connectivity matrix, isolated components, issues *)

(** [{comp['id']: idx for idx, comp in enumerate(components)}] *)
Definition comp_id_to_idx (components : list Component.t) : gmap string nat :=
  foldl (λ (m : gmap string nat) '(idx, comp), <[Component.id comp := idx]> m)
        ∅ (imap pair components).

(** [matrix[idx1][idx2] = 1] *)
Definition matrix_set (idx1 idx2 : nat) (matrix : list (list Z))
    : list (list Z) :=
  alter (<[idx2 := 1%Z]>) idx1 matrix.

(** The innermost statement of [_build_connectivity_matrix] for one pair. *)
Definition mark_pair (index : gmap string nat) (comp_id_1 : string)
    (matrix : list (list Z)) (comp_id_2 : string) : list (list Z) :=
  match index !! comp_id_1, index !! comp_id_2 with
  | Some idx1, Some idx2 => matrix_set idx2 idx1 (matrix_set idx1 idx2 matrix)
  | _, _ => matrix
  end.

(** [for i, comp_id_1 in enumerate(connected_comps):
       for comp_id_2 in connected_comps[i+1:]: ...] *)
Definition mark_connection (index : gmap string nat) (matrix : list (list Z))
    (connection : Connection.t) : list (list Z) :=
  let connected_comps := Connection.connected_components connection in
  foldl (λ matrix '(i, comp_id_1),
           foldl (mark_pair index comp_id_1) matrix (drop (S i) connected_comps))
        matrix (imap pair connected_comps).

Definition build_connectivity_matrix (connections : list Connection.t)
    (components : list Component.t) : list (list Z) :=
  let n_components := length components in
  let matrix := replicate n_components (replicate n_components 0%Z) in
  foldl (mark_connection (comp_id_to_idx components)) matrix connections.

(** [_find_isolated_components]; [None] stands for the [IndexError] of
    [components[i]] when the matrix has more rows than there are components. *)
Definition find_isolated_components (connectivity_matrix : list (list Z))
    (components : list Component.t) : option (list string) :=
  foldl (λ isolated '(i, row),
           isolated ← isolated;
           if decide (sum_Z row = 0%Z) then
             comp ← components !! i;
             Some (isolated ++ [Component.id comp])
           else Some isolated)
        (Some []) (imap pair connectivity_matrix).

(** [_calculate_connection_strengths]; the [0] a missing pair stands for is
    the float zero, which compares like it. *)
Definition py_max (a b : float) : float := if PrimFloat.ltb a b then b else a.

Definition calculate_connection_strengths (connections : list Connection.t)
    : gmap string float :=
  foldl (λ strengths connection,
    let connected_comps := Connection.connected_components connection in
    foldl (λ strengths '(i, comp1),
      foldl (λ (strengths : gmap string float) comp2,
               let pair_key := comp1 +:+ "-" +:+ comp2 in
               let reverse_key := comp2 +:+ "-" +:+ comp1 in
               let strength := Connection.confidence connection in
               let existing_strength :=
                 default (default 0%float (strengths !! reverse_key))
                         (strengths !! pair_key) in
               <[pair_key := py_max strength existing_strength]> strengths)
            strengths (drop (S i) connected_comps))
      strengths (imap pair connected_comps))
    ∅ connections.

(** The dictionary returned by [_build_connection_matrix]. *)
Module ConnectionMatrix.
Record t := mk {
  adjacency_matrix : list (list Z);
  component_ids : list string;
  connection_strengths : gmap string float;
  isolated_components : list string
}.
End ConnectionMatrix.

Definition build_connection_matrix (connections : list Connection.t)
    (components : list Component.t) : option ConnectionMatrix.t :=
  let connectivity_matrix := build_connectivity_matrix connections components in
  isolated ← find_isolated_components connectivity_matrix components;
  Some {| ConnectionMatrix.adjacency_matrix := connectivity_matrix;
          ConnectionMatrix.component_ids := Component.id <$> components;
          ConnectionMatrix.connection_strengths :=
            calculate_connection_strengths connections;
          ConnectionMatrix.isolated_components := isolated |}.

(** The issue dictionaries of [_identify_potential_issues]. *)
Module Issue.
Record t := mk {
  type : string;
  severity : string;
  message : string
}.
End Issue.

Definition identify_potential_issues (connections : list Connection.t)
    (nodes : list Node.t) (components : list Component.t)
    : option (list Issue.t) :=
  let issues := [] in
  let connectivity_matrix := build_connectivity_matrix connections components in
  isolated_components ← find_isolated_components connectivity_matrix components;
  let issues :=
    match isolated_components with
    | [] => issues
    | _ => issues ++
        [{| Issue.type := "isolation";
            Issue.severity := "warning";
            Issue.message :=
              "Found " +:+ pretty (length isolated_components)
              +:+ " isolated components: "
              +:+ String.concat ", " isolated_components |}]
    end in
  let high_degree_nodes :=
    filter (λ node, 4 < Node.connection_count node)%nat nodes in
  let issues :=
    match high_degree_nodes with
    | [] => issues
    | _ => issues ++
        [{| Issue.type := "high_connectivity";
            Issue.severity := "info";
            Issue.message :=
              "Found " +:+ pretty (length high_degree_nodes)
              +:+ " nodes with high connectivity (>4 connections)" |}]
    end in
  let short_connections :=
    filter (λ conn, dist_sq (Connection.end_point conn)
                            (Connection.start_point conn) < 10 ^ 2)%Z
           connections in
  let issues :=
    match short_connections with
    | [] => issues
    | _ => issues ++
        [{| Issue.type := "short_connections";
            Issue.severity := "info";
            Issue.message :=
              "Found " +:+ pretty (length short_connections)
              +:+ " very short connections (possible noise)" |}]
    end in
  Some issues.

(** ** Python values and exceptions, for [netlist_generator.py]

    [generate_spice_netlist] reads its components with [comp.get] and does
    not check what it is given, so the components are taken as
    Python values: whatever the caller passes. *)

Inductive PyVal :=
  | PyNone
  | PyBool (b : bool)
  | PyInt (z : Z)
  | PyStr (s : string)
  | PyList (l : list PyVal)
  | PyDict (d : list (string * PyVal)).

(** A raised exception: its class and [str(e)]. *)
Record PyExc := mkExc { exc_class : string; exc_message : string }.

(** A computation that returns or raises. *)
Inductive result (A : Type) :=
  | Ok (a : A)
  | Raise (e : PyExc).
Arguments Ok {A} a.
Arguments Raise {A} e.

Definition bind {A B} (m : result A) (k : A → result B) : result B :=
  match m with
  | Ok a => k a
  | Raise e => Raise e
  end.

Notation "x ←! m ; k" := (bind m (λ x, k))
  (at level 20, m at level 100, k at level 200, right associativity,
   only parsing).

(** A [for] loop that updates [a] with [body] on each item and that an
    exception leaves. *)
Fixpoint for_each {A B} (body : A → B → result A) (a : A) (items : list B)
    : result A :=
  match items with
  | [] => Ok a
  | item :: rest => a ←! body a item; for_each body a rest
  end.

(** [try: body except Exception as e: handler(e)] *)
Definition try_except {A} (body : result A) (handler : PyExc → result A)
    : result A :=
  match body with
  | Ok a => Ok a
  | Raise e => handler e
  end.

(** [type(v).__name__] *)
Definition py_type_name (v : PyVal) : string :=
  match v with
  | PyNone => "NoneType"
  | PyBool _ => "bool"
  | PyInt _ => "int"
  | PyStr _ => "str"
  | PyList _ => "list"
  | PyDict _ => "dict"
  end.

Definition attribute_error {A} (v : PyVal) (attr : string) : result A :=
  Raise {| exc_class := "AttributeError";
           exc_message := "'" +:+ py_type_name v
                          +:+ "' object has no attribute '" +:+ attr +:+ "'" |}.

(** A dict is the list of its items, keys distinct. *)
Fixpoint lookup_key (d : list (string * PyVal)) (key : string) : option PyVal :=
  match d with
  | [] => None
  | (k, v) :: d' => if decide (k = key) then Some v else lookup_key d' key
  end.

(** [v.get(key, default)]: only a dict has the method. *)
Definition py_get (v : PyVal) (key : string) (dflt : PyVal) : result PyVal :=
  match v with
  | PyDict d => Ok (default dflt (lookup_key d key))
  | _ => attribute_error v "get"
  end.

(** The items a [for] loop takes from [v]; the keys of a dict, the
    characters of a string. *)
Definition py_iter (v : PyVal) : result (list PyVal) :=
  match v with
  | PyList l => Ok l
  | PyDict d => Ok ((λ kv, PyStr kv.1) <$> d)
  | PyStr s => Ok ((λ c, PyStr (String c EmptyString)) <$> String.list_ascii_of_string s)
  | _ => Raise {| exc_class := "TypeError";
                  exc_message := "'" +:+ py_type_name v
                                 +:+ "' object is not iterable" |}
  end.

(** [str.lower] on the ASCII letters. On other characters Python's [lower]
    never yields a letter of the words this file compares with, so the
    comparisons below are the ones of the source. *)
Definition ascii_lower (c : ascii) : ascii :=
  let n := nat_of_ascii c in
  if decide (65 ≤ n ≤ 90)%nat then ascii_of_nat (n + 32) else c.

Fixpoint lower (s : string) : string :=
  match s with
  | EmptyString => EmptyString
  | String c s' => String (ascii_lower c) (lower s')
  end.

(** [v.lower()]: only a string has the method. *)
Definition py_lower (v : PyVal) : result string :=
  match v with
  | PyStr s => Ok (lower s)
  | _ => attribute_error v "lower"
  end.

Definition newline : string := String (ascii_of_nat 10) EmptyString.

(** ["\n".join(lines)] *)
Definition join_lines (lines : list string) : string :=
  String.concat newline lines.

(** ** [NetlistGenerator.generate_spice_netlist] *)

(** The dictionaries appended to [spice_components]. *)
Module Device.
Record t := mk {
  designation : PyVal;
  type : PyVal;
  value : PyVal;
  spice_line : string
}.
End Device.

(** The [metadata] dictionary: [total_components] on success, [error]
    on failure. *)
Module Metadata.
Record t := mk {
  generation_success : bool;
  total_components : option nat;
  error : option string
}.
End Metadata.

(** The dictionary [generate_spice_netlist] returns. *)
Module Netlist.
Record t := mk {
  netlist : string;
  components : list Device.t;
  node_mapping : gmap string Z;
  analysis_commands : list string;
  metadata : Metadata.t
}.
End Netlist.

Section Generator.
(** [sys.get_int_max_str_digits()]: the largest number of digits of an
    integer that [str] prints, 4300 unless it was changed; 0 when there is
    no limit (as before CPython 3.11). *)
Variable int_max_str_digits : nat.
(** [repr] of a list or a dict, which [str] and f-strings fall back to. It
    raises when the printing of an item raises, or when the nesting is too
    deep. *)
Variable py_repr : PyVal → result string.

(** [str(z)]: an integer of more than [int_max_str_digits] digits, that
    is, one with [10 ^ int_max_str_digits ≤ |z|], is not printed. *)
Definition int_str (z : Z) : result string :=
  if decide (0 < int_max_str_digits
             ∧ (10 ^ Z.of_nat int_max_str_digits ≤ Z.abs z)%Z)%nat
  then Raise {| exc_class := "ValueError";
                exc_message :=
                  "Exceeds the limit (" +:+ pretty int_max_str_digits
                  +:+ " digits) for integer string conversion; "
                  +:+ "use sys.set_int_max_str_digits() to increase the limit" |}
  else Ok (pretty z).

(** What an f-string field [{v}] prints. *)
Definition py_str (v : PyVal) : result string :=
  match v with
  | PyNone => Ok "None"
  | PyBool true => Ok "True"
  | PyBool false => Ok "False"
  | PyInt z => int_str z
  | PyStr s => Ok s
  | PyList _ | PyDict _ => py_repr v
  end.

(** [f"{kind}{designation} N1 N2 {last}"] *)
Definition format_spice_line (kind : string) (designation last : PyVal)
    : result string :=
  printed_designation ←! py_str designation;
  printed_last ←! py_str last;
  Ok (kind +:+ printed_designation +:+ " N1 N2 " +:+ printed_last).

(** The body of the inner [try], for one component: the SPICE line and
    the device dictionary, or the exception it raises. [n] is
    [len(spice_components)]. *)
Definition process_component (n : nat) (comp : PyVal)
    : result (string * Device.t) :=
  designation ←! py_get comp "designation" (PyStr ("COMP" +:+ pretty (n + 1)));
  component_type ←! py_get comp "component_type" (PyStr "unknown");
  value ←! py_get comp "value" (PyStr "1");
  lowered ←! py_lower component_type;
  spice_line ←!
    (if decide (lowered = "resistor") then
       format_spice_line "R" designation value
     else if decide (lowered = "capacitor") then
       format_spice_line "C" designation value
     else if decide (lowered = "inductor") then
       format_spice_line "L" designation value
     else
       format_spice_line "X" designation component_type);
  Ok (spice_line,
      {| Device.designation := designation;
         Device.type := component_type;
         Device.value := value;
         Device.spice_line := spice_line |}).

(** [f"⚠️ Failed to process component {comp}: {e}"], the argument of
    [logger.warning] in the inner [except]. *)
Definition warning_message (comp : PyVal) (e : PyExc) : result string :=
  printed ←! py_str comp;
  Ok ("⚠️ Failed to process component " +:+ printed +:+ ": " +:+ exc_message e).

(** One round of the [for] loop: the inner [except] formats a warning and
    goes on to the next component; an exception raised by the formatting
    leaves the loop. *)
Definition add_component (acc : list string * list Device.t) (comp : PyVal)
    : result (list string * list Device.t) :=
  let '(netlist_lines, spice_components) := acc in
  match process_component (length spice_components) comp with
  | Ok (spice_line, device) =>
      Ok (netlist_lines ++ [spice_line], spice_components ++ [device])
  | Raise e =>
      _ ←! warning_message comp e;
      Ok (netlist_lines, spice_components)
  end.

Definition header : list string :=
  ["* Generated SPICE Netlist"; "* Hardware AI Orchestrator"; ""].

(** The body of the outer [try]. *)
Definition generate_body (components : PyVal) : result Netlist.t :=
  let netlist_lines := header in
  let spice_components := [] in
  items ←! py_iter components;
  acc ←! for_each add_component (netlist_lines, spice_components) items;
  let '(netlist_lines, spice_components) := acc in
  let netlist_lines := netlist_lines ++ [""; ".op"; ".end"] in
  let netlist_text := join_lines netlist_lines in
  Ok {| Netlist.netlist := netlist_text;
        Netlist.components := spice_components;
        Netlist.node_mapping := ∅;
        Netlist.analysis_commands := [".op"];
        Netlist.metadata :=
          {| Metadata.generation_success := true;
             Metadata.total_components := Some (length spice_components);
             Metadata.error := None |} |}.

(** The dictionary of the outer [except]. *)
Definition failure (e : PyExc) : Netlist.t :=
  {| Netlist.netlist := "";
     Netlist.components := [];
     Netlist.node_mapping := ∅;
     Netlist.analysis_commands := [];
     Netlist.metadata :=
       {| Metadata.generation_success := false;
          Metadata.total_components := None;
          Metadata.error := Some (exc_message e) |} |}.

(** [connections] and [nodes] are arguments of the source too. *)
Definition generate_spice_netlist (components : PyVal)
    (connections : list Connection.t) (nodes : list Node.t)
    : result Netlist.t :=
  try_except (generate_body components) (λ e, Ok (failure e)).
End Generator.

(** ** The helpers of [NetlistGenerator] on [SPICEComponent] *)

(** [@dataclass SPICEComponent] *)
Module SPICEComponent.
Record t := mk {
  name : string;
  component_type : string;
  nodes : list string;
  value : option string;
  model : option string;
  parameters : option (list (string * PyVal))
}.
End SPICEComponent.

(** [_generate_analysis_commands] *)
Definition generate_analysis_commands (spice_components : list SPICEComponent.t)
    : list string :=
  let commands := [] in
  let commands := commands ++ [".op"] in
  let voltage_sources :=
    filter (λ c, SPICEComponent.component_type c = "V") spice_components in
  let commands :=
    match voltage_sources with
    | [] => commands
    | _ => commands ++ [".dc V1 0 10 0.1"]
    end in
  let reactive_components :=
    filter (λ c, SPICEComponent.component_type c ∈ ["C"; "L"]) spice_components in
  let commands :=
    match reactive_components with
    | [] => commands
    | _ => commands ++ [".ac dec 10 1 1meg"]
    end in
  let commands := commands ++ [".tran 1n 1u"] in
  commands.

(** [_assemble_complete_netlist]; its third argument is not read. *)
Definition assemble_complete_netlist (netlist_lines analysis_commands : list string)
    (spice_components : list SPICEComponent.t) : string :=
  let lines := [] in
  let lines := lines ++ ["* SPICE Netlist Generated by Hardware AI Orchestrator";
                         "* Generated from schematic analysis"; ""] in
  let lines := lines ++ ["* Circuit Components"] in
  let lines := lines ++ netlist_lines in
  let lines := lines ++ [""] in
  let lines := lines ++ ["* Analysis Commands"] in
  let lines := lines ++ analysis_commands in
  let lines := lines ++ [""] in
  let lines := lines ++ ["* Control Commands"; ".control"; "run"; "print all";
                         ".endc"; ""] in
  let lines := lines ++ [".end"] in
  join_lines lines.

(** ** Value normalisation: [_parse_*_value]

    A Python string is a sequence of code points. *)

Module Ustr.
Definition t : Type := list N.

(** The code points of a UTF-8 encoded literal. *)
Fixpoint decode_bytes (cont : nat) (acc : N) (bs : list N) : t :=
  match bs with
  | [] => []
  | b :: bs' =>
      match cont with
      | S O => (acc * 64 + (b - 128))%N :: decode_bytes 0 0 bs'
      | S k => decode_bytes k (acc * 64 + (b - 128))%N bs'
      | O =>
          if (b <? 128)%N then b :: decode_bytes 0 0 bs'
          else if (b <? 224)%N then decode_bytes 1 (b - 192)%N bs'
          else if (b <? 240)%N then decode_bytes 2 (b - 224)%N bs'
          else decode_bytes 3 (b - 240)%N bs'
      end
  end.

Definition of_string (s : string) : t :=
  decode_bytes 0 0 (N_of_ascii <$> String.list_ascii_of_string s).

(** [s.startswith(p)] *)
Fixpoint starts_with (p s : t) : bool :=
  match p, s with
  | [], _ => true
  | _ :: _, [] => false
  | a :: p', b :: s' => (a =? b)%N && starts_with p' s'
  end.

(** [sub in s] *)
Fixpoint contains (sub s : t) : bool :=
  starts_with sub s ||
  match s with
  | [] => false
  | _ :: s' => contains sub s'
  end.

(** [s.replace(old, new)] for a non-empty [old]: occurrences are taken
    from the left and do not overlap. [skip] counts the code points of an
    occurrence still to be dropped. *)
Fixpoint replace_from (old new : t) (skip : nat) (s : t) : t :=
  match s with
  | [] => []
  | c :: s' =>
      match skip with
      | S k => replace_from old new k s'
      | O =>
          if starts_with old s
          then new ++ replace_from old new (length old - 1) s'
          else c :: replace_from old new 0 s'
      end
  end.

Definition replace (old new s : t) : t := replace_from old new 0 s.

(** [str.lower] on one code point, for Basic Latin, Latin-1, Greek and
    the letter-like signs ohm, kelvin and angstrom; elsewhere the
    identity, which is what [lower] does to a lowercase or caseless
    character. (A capital sigma is lowered to the medial small sigma
    wherever it stands.) *)
Definition lower_code_point (c : N) : N :=
  if ((65 <=? c) && (c <=? 90))%N then (c + 32)%N
  else if ((192 <=? c) && (c <=? 222) && negb (c =? 215))%N then (c + 32)%N
  else if ((913 <=? c) && (c <=? 937) && negb (c =? 930))%N then (c + 32)%N
  else if (c =? 8486)%N then 969%N
  else if (c =? 8490)%N then 107%N
  else if (c =? 8491)%N then 229%N
  else c.

Definition lower (s : t) : t := lower_code_point <$> s.
End Ustr.

Definition u : string → Ustr.t := Ustr.of_string.

(** [if not value_str] *)
Definition falsy (value_str : Ustr.t) : bool :=
  match value_str with [] => true | _ => false end.

(** [_parse_resistance_value] *)
Definition parse_resistance_value (value_str : Ustr.t) : Ustr.t :=
  if falsy value_str then u "1k" else
  let value_str :=
    Ustr.lower (Ustr.replace (u " ") (u "")
                  (Ustr.replace (u "ohm") (u "")
                     (Ustr.replace (u "Ω") (u "") value_str))) in
  if Ustr.contains (u "k") value_str then value_str
  else if Ustr.contains (u "m") value_str && negb (Ustr.contains (u "meg") value_str)
  then Ustr.replace (u "m") (u "meg") value_str
  else if Ustr.contains (u "g") value_str
  then Ustr.replace (u "g") (u "g") value_str
  else if falsy value_str then u "1k" else value_str.

(** [for old, new in multiplier_map.items(): value_str = value_str.replace(old, new)] *)
Definition apply_multiplier_map (multiplier_map : list (Ustr.t * Ustr.t))
    (value_str : Ustr.t) : Ustr.t :=
  foldl (λ value_str '(old, new), Ustr.replace old new value_str)
        value_str multiplier_map.

(** [_parse_capacitance_value] *)
Definition parse_capacitance_value (value_str : Ustr.t) : Ustr.t :=
  if falsy value_str then u "1n" else
  let value_str :=
    Ustr.lower (Ustr.replace (u " ") (u "")
                  (Ustr.replace (u "F") (u "") value_str)) in
  let multiplier_map :=
    [(u "μ", u "u"); (u "u", u "u"); (u "n", u "n"); (u "p", u "p");
     (u "f", u "f")] in
  let value_str := apply_multiplier_map multiplier_map value_str in
  if falsy value_str then u "1n" else value_str.

(** [_parse_inductance_value] *)
Definition parse_inductance_value (value_str : Ustr.t) : Ustr.t :=
  if falsy value_str then u "1u" else
  let value_str :=
    Ustr.lower (Ustr.replace (u " ") (u "")
                  (Ustr.replace (u "H") (u "") value_str)) in
  let multiplier_map :=
    [(u "μ", u "u"); (u "u", u "u"); (u "m", u "m"); (u "n", u "n")] in
  let value_str := apply_multiplier_map multiplier_map value_str in
  if falsy value_str then u "1u" else value_str.

(** [_parse_voltage_value] *)
Definition parse_voltage_value (value_str : Ustr.t) : Ustr.t :=
  if falsy value_str then u "5" else
  let value_str :=
    Ustr.lower (Ustr.replace (u " ") (u "")
                  (Ustr.replace (u "V") (u "") value_str)) in
  if Ustr.contains (u "k") value_str then value_str
  else if Ustr.contains (u "m") value_str
  then Ustr.replace (u "m") (u "m") value_str
  else if falsy value_str then u "5" else value_str.

(** ** [_build_connection_network] on NumPy coordinates

    In [detect_connections] the endpoints of a classified segment are
    [np.int32] and the position of a pin holds Python integers. NumPy 2
    computes [start_point[0] - pin_pos[0]], the squares and their sum on
    [int32]: it raises [OverflowError] for a Python integer outside the
    range of [int32], and wraps around otherwise. [np.sqrt] of a negative
    [int32] is a NaN, and the comparison of a NaN with the threshold is
    false. *)

Definition overflow_error {A} (z : Z) : result A :=
  Raise {| exc_class := "OverflowError";
           exc_message :=
             "Python integer " +:+ pretty z +:+ " out of bounds for int32" |}.

(** [a - b] for an [int32] [a] and a Python integer [b] *)
Definition int32_sub_int (a b : Z) : result Z :=
  if decide (Int32.in_range b) then Ok (Int32.sub a b) else overflow_error b.

(** [(p[0] - pin_pos[0])**2 + (p[1] - pin_pos[1])**2] *)
Definition int32_dist_sq (p pin_pos : Point) : result Z :=
  dx ←! int32_sub_int p.1 pin_pos.1;
  dy ←! int32_sub_int p.2 pin_pos.2;
  Ok (Int32.add (Int32.square dx) (Int32.square dy)).

(** [np.sqrt(d) < threshold] for an [int32] [d] and a positive integer
    [threshold] *)
Definition sqrt_below (d threshold : Z) : bool :=
  bool_decide (0 ≤ d ∧ d < threshold ^ 2)%Z.

(** [dist_start < proximity_threshold or dist_end < proximity_threshold],
    both distances being computed first *)
Definition near_int32 (conn : Classified.t) (pin : Pin.t) : result bool :=
  dist_start ←!
    int32_dist_sq (Classified.start_point conn) (Pin.position pin);
  dist_end ←! int32_dist_sq (Classified.end_point conn) (Pin.position pin);
  Ok (sqrt_below dist_start proximity_threshold
      || sqrt_below dist_end proximity_threshold).

(** The inner loop. *)
Definition nearby_components_int32 (conn : Classified.t)
    (component_pins : list Pin.t) : result (list string) :=
  for_each (λ connected_components pin,
              is_near ←! near_int32 conn pin;
              Ok (if is_near : bool
                  then connected_components ++ [Pin.component_id pin]
                  else connected_components))
           [] component_pins.

(** One round of the outer loop. *)
Definition add_connection_int32 (component_pins : list Pin.t)
    (connections : list Connection.t) (conn : Classified.t)
    : result (list Connection.t) :=
  connected_components ←! nearby_components_int32 conn component_pins;
  let connected_components := list_set connected_components in
  Ok (if decide (1 ≤ length connected_components)%nat
      then connections ++ [make_connection conn connected_components]
      else connections).

Definition build_connection_network_int32
    (electrical_connections : list Classified.t)
    (component_pins : list Pin.t) (detected_components : list Component.t)
    : result (list Connection.t) :=
  for_each (add_connection_int32 component_pins) [] electrical_connections.

(** ** Steps 2 to 5 of [detect_connections]

    Step 1, [_detect_line_segments], is OpenCV's; its result is the
    argument [line_segments]. Step 4 is taken on exact integers. *)

Section Pipeline.
Context {Image : Type}.
Variable np_sqrt : Z → float.
Variable arctan2_degrees : Z → Z → float.
Variable estimate_line_thickness : Image → Segment → float.
Variable check_line_continuity : Image → Segment → float.

Definition detect_connections_from (line_segments : list Segment)
    (image : Image) (detected_components : list Component.t)
    : list Connection.t * list Node.t :=
  let electrical_connections :=
    classify_line_segments np_sqrt arctan2_degrees estimate_line_thickness
      check_line_continuity line_segments image in
  let component_pins := extract_component_pins detected_components in
  let connections :=
    build_connection_network electrical_connections component_pins
      detected_components in
  let nodes := identify_electrical_nodes connections component_pins in
  (connections, nodes).
End Pipeline.

(** ** Notions used in the statements *)

(** The netlist with no device line. *)
Definition minimal_netlist : string :=
  join_lines ["* Generated SPICE Netlist"; "* Hardware AI Orchestrator"; "";
              ""; ".op"; ".end"].

Section GeneratorNotions.
Variable int_max_str_digits : nat.
Variable py_repr : PyVal → result string.

(** [v] cannot be printed: [str(v)] raises. *)
Definition unprintable (v : PyVal) : bool :=
  match py_str int_max_str_digits py_repr v with
  | Ok _ => false
  | Raise _ => true
  end.

(** The inner [try] raises on [comp]: it is not a dict, or its
    [component_type] is not a string, or its designation cannot be
    printed, or it is a resistor, a capacitor or an inductor and its value
    cannot be printed. *)
Definition component_fails (comp : PyVal) : bool :=
  match comp with
  | PyDict d =>
      match default (PyStr "unknown") (lookup_key d "component_type") with
      | PyStr s =>
          match lookup_key d "designation" with
          | Some designation => unprintable designation
          | None => false
          end
          || (if decide (lower s ∈ ["resistor"; "capacitor"; "inductor"])
              then unprintable (default (PyStr "1") (lookup_key d "value"))
              else false)
      | _ => true
      end
  | _ => true
  end.

(** The exception that leaves the loop over the components, if any: the
    one raised by the printing, for the warning, of the first component
    that fails and cannot be printed. *)
Fixpoint warning_failure (items : list PyVal) : option PyExc :=
  match items with
  | [] => None
  | comp :: rest =>
      if component_fails comp then
        match py_str int_max_str_digits py_repr comp with
        | Ok _ => warning_failure rest
        | Raise e => Some e
        end
      else warning_failure rest
  end.

(** A device line: a kind letter, the designation, the two literal node
    names, then a value or a type. *)
Definition device_line_shape (d : Device.t) : Prop :=
  ∃ kind designation tail,
    kind ∈ ["R"; "C"; "L"; "X"]
    ∧ py_str int_max_str_digits py_repr (Device.designation d) = Ok designation
    ∧ Device.spice_line d = kind +:+ designation +:+ " N1 N2 " +:+ tail.
End GeneratorNotions.

(** The dictionary of a failure with exception [e]: no device, the empty
    text, no analysis command, [generation_success] false and the message
    of [e] as [error]. *)
Definition is_failure (r : Netlist.t) (e : PyExc) : Prop :=
  Netlist.components r = []
  ∧ Netlist.netlist r = ""
  ∧ Netlist.analysis_commands r = []
  ∧ Metadata.generation_success (Netlist.metadata r) = false
  ∧ Metadata.error (Netlist.metadata r) = Some (exc_message e).

Definition ends_with (s suffix : string) : Prop := ∃ pre, s = pre +:+ suffix.

(** A transient directive is a command that starts with [.tran]. *)
Definition is_transient (command : string) : Prop :=
  ∃ rest, command = ".tran" +:+ rest.

(** A point of an image of at most 32768 by 32768 pixels. *)
Definition in_image (p : Point) : Prop :=
  (0 ≤ p.1 ≤ 32767 ∧ 0 ≤ p.2 ≤ 32767)%Z.

(** The owning components of the pins near a segment, in pin order. *)
Definition near_component_ids (conn : Classified.t) (component_pins : list Pin.t)
    : list string :=
  Pin.component_id <$> filter (near conn) component_pins.

(** The connection a segment gives when some pin is near it. *)
Definition connection_of (component_pins : list Pin.t) (conn : Classified.t)
    : Connection.t :=
  make_connection conn (list_set (near_component_ids conn component_pins)).

(** Row [k] of the matrix is written for a component of some connection:
    an identifier of the connection is mapped to [k]. *)
Definition touched (connections : list Connection.t) (index : gmap string nat)
    (k : nat) : Prop :=
  ∃ c id, c ∈ connections ∧ id ∈ Connection.connected_components c
          ∧ index !! id = Some k.

(** Every entry of the matrix that is not zero is in a touched row. *)
Definition entries_touched (connections : list Connection.t)
    (index : gmap string nat) (matrix : list (list Z)) : Prop :=
  ∀ k row j v, matrix !! k = Some row → row !! j = Some v → v ≠ 0%Z
               → touched connections index k.

(** The edge the search follows from a popped pin [p]: a pin [q] of the
    pin list whose component is another component of a connection that
    names the component of [p]. *)
Definition pin_step (connections : list Connection.t) (all_pins : list Pin.t)
    (p q : Pin.t) : Prop :=
  q ∈ all_pins
  ∧ ∃ c, c ∈ connections
         ∧ Pin.component_id p ∈ Connection.connected_components c
         ∧ Pin.component_id q ∈ Connection.connected_components c
         ∧ Pin.component_id q ≠ Pin.component_id p.

(** The identifiers of a list of pins, as a set. *)
Definition pin_ids (pins : list Pin.t) : gset string :=
  list_to_set (Pin.pin_id <$> pins).

(** The search only adds identifiers. *)
Definition grows (st st' : Bfs.state) : Prop :=
  Bfs.processed st ⊆ Bfs.processed st'.

(** Every edge from [p] leads to a processed identifier. *)
Definition closed (connections : list Connection.t) (all_pins : list Pin.t)
    (p : Pin.t) (st : Bfs.state) : Prop :=
  ∀ q, pin_step connections all_pins p q → Pin.pin_id q ∈ Bfs.processed st.

(** What holds of the search state while [current] is being visited (or,
    with [current = None], between two rounds of the loop). *)
Definition bfs_invariant (connections : list Connection.t)
    (all_pins : list Pin.t) (start_pin : Pin.t) (current : list Pin.t)
    (st : Bfs.state) : Prop :=
  Bfs.processed st = pin_ids (Bfs.connected_pins st)
  ∧ NoDup (Pin.pin_id <$> Bfs.connected_pins st)
  ∧ start_pin ∈ Bfs.connected_pins st
  ∧ (∀ q, q ∈ Bfs.connected_pins st
          → rtc (pin_step connections all_pins) start_pin q)
  ∧ ∃ visited, Bfs.connected_pins st = visited ++ current ++ Bfs.queue st
               ∧ ∀ p, p ∈ visited → closed connections all_pins p st.

(** The measure of the loop: identifiers still to process, plus the queue. *)
Definition bfs_measure (all_pins : list Pin.t) (st : Bfs.state) : nat :=
  size (pin_ids all_pins ∖ Bfs.processed st) + length (Bfs.queue st).

(** Membership of a pin in the node at index [i]. *)
Definition in_node (groups : list (list Pin.t)) (i : nat) (p : Pin.t) : Prop :=
  ∃ g, groups !! i = Some g ∧ p ∈ g.

(** Two pins share a node. *)
Definition share_node (groups : list (list Pin.t)) (p q : Pin.t) : Prop :=
  ∃ i, in_node groups i p ∧ in_node groups i q.

(** What holds of the resolver state once the pins [seen] have been
    taken from the pin list. *)
Definition resolver_invariant (connections : list Connection.t)
    (pins seen : list Pin.t) (st : Resolver.state) : Prop :=
  (∀ id, id ∈ Resolver.processed_pins st
         ↔ ∃ i p, in_node (snd <$> Resolver.nodes st) i p ∧ Pin.pin_id p = id)
  ∧ Resolver.node_counter st = length (Resolver.nodes st)
  ∧ (∀ p, p ∈ seen → Pin.pin_id p ∈ Resolver.processed_pins st)
  ∧ (∀ i node g, Resolver.nodes st !! i = Some (node, g)
       → node = make_node i g
         ∧ ∃ s, s ∈ pins ∧ g = find_connected_pins s connections pins)
  ∧ (∀ i j p, in_node (snd <$> Resolver.nodes st) i p
              → in_node (snd <$> Resolver.nodes st) j p → i = j).

(** A resistor with identifier [id] and bounding box [(x1, y1, x2, y2)]. *)
Definition resistor (id : string) (x1 y1 x2 y2 : Z) : Component.t :=
  {| Component.id := id; Component.bbox := (x1, y1, x2, y2);
     Component.component_type := Some "resistor" |}.

(** Its left and right pins. *)
Definition left_pin (id : string) (x1 y1 x2 y2 : Z) : Pin.t :=
  make_pin id "resistor" 0 (x1, int_mid y1 y2).

Definition right_pin (id : string) (x1 y1 x2 y2 : Z) : Pin.t :=
  make_pin id "resistor" 1 (x2, int_mid y1 y2).

(** * Properties *)

(** ** Strings *)

Lemma string_app_assoc (s1 s2 s3 : string) :
  (s1 +:+ s2) +:+ s3 = s1 +:+ (s2 +:+ s3).
Proof.
  induction s1 as [|c s1 IH]; [done|].
  change (String c ((s1 +:+ s2) +:+ s3) = String c (s1 +:+ (s2 +:+ s3))).
  by rewrite IH.
Qed.

(** ** Netlist generation *)

Lemma join_lines_snoc (lines : list string) (last : string) :
  ends_with (join_lines (lines ++ [last])) last.
Proof.
  unfold ends_with, join_lines.
  induction lines as [|x [|y lines] IH]; simpl.
  - by exists "".
  - exists (x +:+ newline). by rewrite string_app_assoc.
  - destruct IH as [pre Hpre]. simpl in Hpre.
    exists (x +:+ newline +:+ pre).
    rewrite Hpre. by rewrite !string_app_assoc.
Qed.

Section GeneratorProperties.
Variable limit : nat.
Variable repr : PyVal → result string.

Lemma unprintable_true (v : PyVal) :
  unprintable limit repr v = true → ∃ e, py_str limit repr v = Raise e.
Proof. unfold unprintable. destruct (py_str limit repr v); [done|eauto]. Qed.

Lemma unprintable_false (v : PyVal) :
  unprintable limit repr v = false → ∃ s, py_str limit repr v = Ok s.
Proof. unfold unprintable. destruct (py_str limit repr v); [eauto|done]. Qed.

Lemma format_spice_line_raises (kind : string) (designation last : PyVal) :
  unprintable limit repr designation
  || unprintable limit repr last = true
  → ∃ e, format_spice_line limit repr kind designation last
         = Raise e.
Proof.
  unfold format_spice_line. intros Hor.
  destruct (unprintable limit repr designation) eqn:Hd.
  - apply unprintable_true in Hd as [e ->]. simpl. eauto.
  - apply unprintable_false in Hd as [s ->]. simpl in *.
    apply unprintable_true in Hor as [e ->]. simpl. eauto.
Qed.

Lemma format_spice_line_ok (kind : string) (designation last : PyVal) :
  unprintable limit repr designation = false
  → unprintable limit repr last = false
  → ∃ printed tail,
      py_str limit repr designation = Ok printed
      ∧ format_spice_line limit repr kind designation last
        = Ok (kind +:+ printed +:+ " N1 N2 " +:+ tail).
Proof.
  unfold format_spice_line.
  intros [printed Hd]%unprintable_false [tail Hl]%unprintable_false.
  exists printed, tail. by rewrite Hd, Hl.
Qed.

Lemma process_component_fails (n : nat) (comp : PyVal) :
  component_fails limit repr comp = true
  → ∃ e, process_component limit repr n comp = Raise e.
Proof.
  unfold component_fails, process_component.
  destruct comp as [| | | |l|d]; simpl; try (intros _; eauto; fail).
  destruct (default (PyStr "unknown") (lookup_key d "component_type"))
    as [| | |s| |]; simpl; try (intros _; eauto; fail).
  set (designation :=
         default (PyStr ("COMP" +:+ pretty (n + 1)))
           (lookup_key d "designation")).
  set (value := default (PyStr "1") (lookup_key d "value")).
  assert (match lookup_key d "designation" with
          | Some designation => unprintable limit repr designation
          | None => false
          end = unprintable limit repr designation) as ->.
  { unfold designation. by destruct (lookup_key d "designation"). }
  intros Hfails.
  destruct (decide (lower s ∈ ["resistor"; "capacitor"; "inductor"]))
    as [Hin|Hnin].
  - assert (∀ kind, ∃ e, format_spice_line limit repr kind
                           designation value = Raise e) as Hvalue
      by (intros kind; by apply format_spice_line_raises).
    repeat case_decide;
      [destruct (Hvalue "R") as [e ->]|destruct (Hvalue "C") as [e ->]
      |destruct (Hvalue "L") as [e ->]|exfalso; set_solver];
      simpl; eauto.
  - rewrite orb_false_r in Hfails.
    destruct (format_spice_line_raises "X" designation (PyStr s)) as [e He];
      [by rewrite Hfails|].
    repeat case_decide; [exfalso; set_solver..|].
    rewrite He. simpl. eauto.
Qed.

Lemma process_component_ok (n : nat) (comp : PyVal) :
  component_fails limit repr comp = false
  → ∃ line d, process_component limit repr n comp = Ok (line, d)
              ∧ Device.spice_line d = line ∧ device_line_shape limit repr d.
Proof.
  unfold component_fails, process_component, device_line_shape.
  destruct comp as [| | | |l|d]; simpl; try done.
  destruct (default (PyStr "unknown") (lookup_key d "component_type"))
    as [| | |s| |]; simpl; try done.
  set (designation :=
         default (PyStr ("COMP" +:+ pretty (n + 1)))
           (lookup_key d "designation")).
  set (value := default (PyStr "1") (lookup_key d "value")).
  assert (match lookup_key d "designation" with
          | Some designation => unprintable limit repr designation
          | None => false
          end = unprintable limit repr designation) as ->.
  { unfold designation. by destruct (lookup_key d "designation"). }
  intros [Hd Hv]%orb_false_elim.
  assert (∀ kind last,
            unprintable limit repr last = false
            → kind ∈ ["R"; "C"; "L"; "X"]
            → ∃ line dev,
                (spice_line ←!
                   format_spice_line limit repr kind
                     designation last;
                 Ok (spice_line,
                     {| Device.designation := designation;
                        Device.type := PyStr s;
                        Device.value := value;
                        Device.spice_line := spice_line |}))
                = Ok (line, dev)
                ∧ Device.spice_line dev = line
                ∧ ∃ kind' printed tail,
                    kind' ∈ ["R"; "C"; "L"; "X"]
                    ∧ py_str limit repr (Device.designation dev) = Ok printed
                    ∧ Device.spice_line dev
                      = kind' +:+ printed +:+ " N1 N2 " +:+ tail) as Hline.
  { intros kind last Hlast Hkind.
    destruct (format_spice_line_ok kind designation last Hd Hlast)
      as (printed & tail & Hprinted & ->).
    simpl. eexists _, _. split; [done|]. split; [done|].
    exists kind, printed, tail. done. }
  destruct (decide (lower s ∈ ["resistor"; "capacitor"; "inductor"]))
    as [Hin|Hnin].
  - repeat case_decide;
      [apply Hline; [done|set_solver]..|exfalso; set_solver].
  - repeat case_decide; [exfalso; set_solver..|].
    apply Hline; [done|set_solver].
Qed.

Lemma add_component_raise (lines : list string) (devices : list Device.t)
    (comp : PyVal) (e : PyExc) :
  process_component limit repr (length devices) comp = Raise e
  → add_component limit repr (lines, devices) comp
    = (_ ←! warning_message limit repr comp e;
       Ok (lines, devices)).
Proof. unfold add_component. by intros ->. Qed.

Lemma add_component_ok (lines : list string) (devices : list Device.t)
    (comp : PyVal) (line : string) (d : Device.t) :
  process_component limit repr (length devices) comp = Ok (line, d)
  → add_component limit repr (lines, devices) comp
    = Ok (lines ++ [line], devices ++ [d]).
Proof. unfold add_component. by intros ->. Qed.

(** The loop over the components: a failing component is skipped when it
    can be printed, and stops the loop with the exception of its printing
    otherwise; every other one contributes its line and its device, in
    order. *)
Lemma for_each_add_component (items : list PyVal) : ∀ lines devices,
  match warning_failure limit repr items with
  | Some e =>
      for_each (add_component limit repr) (lines, devices) items = Raise e
  | None =>
      ∃ new,
        for_each (add_component limit repr) (lines, devices) items
          = Ok (lines ++ (Device.spice_line <$> new), devices ++ new)
        ∧ length new
          = length (filter (λ c, component_fails limit repr c = false) items)
        ∧ Forall (device_line_shape limit repr) new
  end.
Proof.
  induction items as [|comp items IH]; intros lines devices.
  - exists []. by rewrite !app_nil_r.
  - cbn [warning_failure for_each].
    destruct (component_fails limit repr comp) eqn:Hf.
    + destruct (process_component_fails (length devices) comp Hf) as [e He].
      rewrite (add_component_raise _ _ _ _ He).
      unfold warning_message.
      destruct (py_str limit repr comp) as [printed|e']; cbn [bind]; [|done].
      specialize (IH lines devices).
      destruct (warning_failure limit repr items); [done|].
      destruct IH as (new & Heq & Hlen & Hall).
      exists new. by rewrite filter_cons_False by (by rewrite Hf).
    + destruct (process_component_ok (length devices) comp Hf)
        as (line & d & Hd & Hline & Hshape).
      rewrite (add_component_ok _ _ _ _ _ Hd).
      cbn [bind].
      specialize (IH (lines ++ [line]) (devices ++ [d])).
      destruct (warning_failure limit repr items); [done|].
      destruct IH as (new & Heq & Hlen & Hall).
      exists (d :: new). rewrite Heq, <- !app_assoc.
      rewrite filter_cons_True by done.
      cbn [fmap list_fmap app length]. rewrite Hline, Hlen.
      split; [done|]. split; [done|]. by constructor.
Qed.

(** What the outer [try] body returns on an iterable [components] when
    no warning fails. *)
Lemma generate_body_ok (components : PyVal) (items : list PyVal) :
  py_iter components = Ok items
  → warning_failure limit repr items = None
  → ∃ r, generate_body limit repr components = Ok r
      ∧ Metadata.generation_success (Netlist.metadata r) = true
      ∧ Metadata.error (Netlist.metadata r) = None
      ∧ Netlist.node_mapping r = ∅
      ∧ Netlist.analysis_commands r = [".op"]
      ∧ Netlist.netlist r
        = join_lines (header ++ (Device.spice_line <$> Netlist.components r)
                        ++ [""; ".op"; ".end"])
      ∧ length (Netlist.components r)
        = length (filter (λ c, component_fails limit repr c = false) items)
      ∧ Forall (device_line_shape limit repr) (Netlist.components r).
Proof.
  intros Hit Hwarn. unfold generate_body. rewrite Hit. cbn [bind].
  pose proof (for_each_add_component items header []) as Hloop.
  rewrite Hwarn in Hloop. destruct Hloop as (new & -> & Hlen & Hall).
  cbn [bind]. eexists. split; [done|]. cbn. done.
Qed.

(** And when the warning for a component fails. *)
Lemma generate_body_raises (components : PyVal) (items : list PyVal)
    (e : PyExc) :
  py_iter components = Ok items
  → warning_failure limit repr items = Some e
  → generate_body limit repr components = Raise e.
Proof.
  intros Hit Hwarn. unfold generate_body. rewrite Hit. cbn [bind].
  pose proof (for_each_add_component items header []) as Hloop.
  rewrite Hwarn in Hloop. by rewrite Hloop.
Qed.

(** The three ways [generate_spice_netlist] ends. *)
Lemma generate_spice_netlist_cases (components : PyVal)
    (connections : list Connection.t) (nodes : list Node.t) :
  (∃ e, generate_spice_netlist limit repr components
          connections nodes = Ok (failure e)
        ∧ (py_iter components = Raise e
           ∨ ∃ items, py_iter components = Ok items
                      ∧ warning_failure limit repr items = Some e))
  ∨ (∃ items r,
       py_iter components = Ok items
       ∧ warning_failure limit repr items = None
       ∧ generate_spice_netlist limit repr components
           connections nodes = Ok r
       ∧ Metadata.generation_success (Netlist.metadata r) = true
       ∧ Metadata.error (Netlist.metadata r) = None
       ∧ Netlist.node_mapping r = ∅
       ∧ Netlist.analysis_commands r = [".op"]
       ∧ Netlist.netlist r
         = join_lines (header ++ (Device.spice_line <$> Netlist.components r)
                         ++ [""; ".op"; ".end"])
       ∧ length (Netlist.components r)
         = length (filter (λ c, component_fails limit repr c = false) items)
       ∧ Forall (device_line_shape limit repr) (Netlist.components r)).
Proof.
  unfold generate_spice_netlist.
  destruct (py_iter components) as [items|e] eqn:Hit.
  - destruct (warning_failure limit repr items) as [e|] eqn:Hwarn.
    + left. exists e. rewrite (generate_body_raises _ _ _ Hit Hwarn).
      split; [done|]. right. by exists items.
    + right. destruct (generate_body_ok _ _ Hit Hwarn) as (r & Hr & Hrest).
      exists items, r. by rewrite Hr.
  - left. exists e. unfold generate_body. rewrite Hit. split; [done|by left].
Qed.
End GeneratorProperties.

(** C3, as amended. [generate_spice_netlist] never raises. A component
    whose processing raises (it is not a dict, or its [component_type] is
    not a string, or its designation or its value cannot be printed) is
    skipped, with a warning that prints it. When [components] cannot be
    iterated, or when such a component cannot be printed for its warning,
    the result is the failure dictionary: no device, the empty netlist
    text, no analysis command, [generation_success] false and the message
    of the exception. Otherwise the result has [generation_success] true,
    no error, one device per component that did not raise, and the header,
    the device lines, [.op] and [.end] as its text. *)
Theorem generate_spice_netlist_never_raises (int_max_str_digits : nat)
    (py_repr : PyVal → result string) (components : PyVal)
    (connections : list Connection.t) (nodes : list Node.t) :
  (∀ n comp,
     component_fails int_max_str_digits py_repr comp = true
     ↔ ∃ e, process_component int_max_str_digits py_repr n comp = Raise e)
  ∧ ∃ r, generate_spice_netlist int_max_str_digits py_repr components
         connections nodes = Ok r
    ∧ match py_iter components with
      | Raise e => is_failure r e
      | Ok items =>
          match warning_failure int_max_str_digits py_repr items with
          | Some e => is_failure r e
          | None =>
              Metadata.generation_success (Netlist.metadata r) = true
              ∧ Metadata.error (Netlist.metadata r) = None
              ∧ length (Netlist.components r)
                = length (filter
                            (λ c, component_fails int_max_str_digits py_repr c
                                  = false) items)
              ∧ Netlist.netlist r
                = join_lines (header
                                ++ (Device.spice_line <$> Netlist.components r)
                                ++ [""; ".op"; ".end"])
          end
      end.
Proof.
  split.
  { intros n comp. split; [apply process_component_fails|].
    intros [e He].
    destruct (component_fails int_max_str_digits py_repr comp) eqn:Hf; [done|].
    destruct (process_component_ok int_max_str_digits py_repr n comp Hf)
      as (line & d & Hd & _).
    congruence. }
  destruct (generate_spice_netlist_cases int_max_str_digits py_repr components
              connections nodes)
    as [(e & Hr & [Hit|(items & Hit & Hwarn)])
       |(items & r & Hit & Hwarn & Hr & Hs & He & _ & _ & Htext & Hlen & _)].
  - exists (failure e). by rewrite Hit.
  - exists (failure e). by rewrite Hit, Hwarn.
  - exists r. by rewrite Hit, Hwarn.
Qed.

(** C3, counterexample. A component dictionary whose [component_type] is
    [None] makes the inner [try] raise, and yet the result for it and a
    well-formed resistor has [generation_success] true, no error and one
    device; and for [components = None] the netlist text is empty, not the
    minimal netlist. (The limit on digits is the default one; the printing
    of a list or a dict is taken to give the name of its type.) *)
Lemma generate_spice_netlist_failure_counterexample :
  let py_repr := λ v, Ok (py_type_name v) in
  let bad := PyDict [("component_type", PyNone)] in
  let good := PyDict [("component_type", PyStr "resistor");
                      ("designation", PyStr "1"); ("value", PyStr "10k")] in
  (∃ e, process_component 4300 py_repr 0 bad = Raise e)
  ∧ (∃ r, generate_spice_netlist 4300 py_repr (PyList [bad; good]) [] [] = Ok r
        ∧ Metadata.generation_success (Netlist.metadata r) = true
        ∧ Metadata.error (Netlist.metadata r) = None
        ∧ (Device.spice_line <$> Netlist.components r) = ["R1 N1 N2 10k"])
  ∧ (∃ r, generate_spice_netlist 4300 py_repr PyNone [] [] = Ok r
        ∧ Metadata.generation_success (Netlist.metadata r) = false
        ∧ Netlist.netlist r = ""
        ∧ Netlist.netlist r ≠ minimal_netlist).
Proof.
  split; [by eexists|]. split.
  - eexists. split; [reflexivity|]. done.
  - eexists. split; [reflexivity|]. done.
Qed.

(** A component that cannot be printed. When there is a limit on the
    digits of an integer and [z] has more digits (with the default limit of
    4300 digits, [10 ^ 4300] is such an integer), a resistor whose
    designation is [z] makes the f-string of its line raise; the warning
    prints the component, and when that raises too the result is the
    failure dictionary, whatever the other components. The same holds when
    the component is [z] itself. *)
Lemma generate_spice_netlist_unprintable_component (int_max_str_digits : nat)
    (py_repr : PyVal → result string) (z : Z) (e : PyExc) :
  (0 < int_max_str_digits)%nat
  → (10 ^ Z.of_nat int_max_str_digits ≤ Z.abs z)%Z
  → let huge := PyInt z in
    let bad := PyDict [("component_type", PyStr "resistor");
                       ("designation", huge); ("value", PyStr "10k")] in
    let good := PyDict [("component_type", PyStr "resistor");
                        ("designation", PyStr "1"); ("value", PyStr "10k")] in
    (py_repr bad = Raise e
     → generate_spice_netlist int_max_str_digits py_repr
         (PyList [good; bad; good]) [] []
       = Ok (failure e))
    ∧ ∃ e', exc_class e' = "ValueError"
            ∧ generate_spice_netlist int_max_str_digits py_repr
                (PyList [good; huge; good]) [] []
              = Ok (failure e').
Proof.
  intros Hlimit Hdigits huge bad good.
  assert (∃ e', exc_class e' = "ValueError"
                ∧ py_str int_max_str_digits py_repr huge = Raise e')
    as (e' & Hclass & Hhuge).
  { eexists. split; [|unfold huge, py_str, int_str; by rewrite decide_True].
    reflexivity. }
  assert (unprintable int_max_str_digits py_repr huge = true) as Hunprintable
    by (unfold unprintable; by rewrite Hhuge).
  assert (component_fails int_max_str_digits py_repr good = false) as Hgood
    by reflexivity.
  split.
  - intros Hbad.
    assert (component_fails int_max_str_digits py_repr bad = true) as Hfails.
    { change (component_fails int_max_str_digits py_repr bad)
        with (unprintable int_max_str_digits py_repr huge || false).
      by rewrite Hunprintable. }
    assert (generate_body int_max_str_digits py_repr (PyList [good; bad; good])
            = Raise e) as Hbody.
    { apply generate_body_raises with [good; bad; good]; [reflexivity|].
      cbn [warning_failure]. rewrite Hgood, Hfails.
      change (py_str int_max_str_digits py_repr bad) with (py_repr bad).
      rewrite Hbad. reflexivity. }
    unfold generate_spice_netlist. rewrite Hbody. reflexivity.
  - exists e'. split; [done|].
    assert (generate_body int_max_str_digits py_repr
              (PyList [good; huge; good]) = Raise e') as Hbody.
    { apply generate_body_raises with [good; huge; good]; [reflexivity|].
      cbn [warning_failure]. rewrite Hgood.
      change (component_fails int_max_str_digits py_repr huge) with true.
      cbn iota. rewrite Hhuge. reflexivity. }
    unfold generate_spice_netlist. rewrite Hbody. reflexivity.
Qed.

(** ** Value normalisation *)

(** C5. The value table: ["10kΩ"] gives ["10k"] as a resistance,
    ["100μF"] gives ["100u"] and ["22pF"] gives ["22p"] as capacitances,
    and ["5V"] gives ["5"] as a voltage. *)
Theorem value_round_trip_table :
  parse_resistance_value (u "10kΩ") = u "10k"
  ∧ parse_capacitance_value (u "100μF") = u "100u"
  ∧ parse_capacitance_value (u "22pF") = u "22p"
  ∧ parse_voltage_value (u "5V") = u "5".
Proof. repeat split; vm_compute; reflexivity. Qed.

(** ** Analysis directives *)

Lemma generate_analysis_commands_spec (devices : list SPICEComponent.t) :
  generate_analysis_commands devices
  = [".op"]
    ++ (if decide (Exists (λ d, SPICEComponent.component_type d = "V") devices)
        then [".dc V1 0 10 0.1"] else [])
    ++ (if decide (Exists (λ d, SPICEComponent.component_type d ∈ ["C"; "L"])
                     devices)
        then [".ac dec 10 1 1meg"] else [])
    ++ [".tran 1n 1u"].
Proof.
  assert (∀ (P : SPICEComponent.t → Prop) `{!∀ x, Decision (P x)},
            filter P devices = [] ↔ ¬ Exists P devices) as Hnil.
  { intros P ?. rewrite Exists_exists. setoid_rewrite <- list_elem_of_In. split.
    - intros Hf (d & Hin & Hd). by apply (filter_nil_not_elem_of P devices d).
    - intros Hn. destruct (filter P devices) as [|x xs] eqn:Hf; [done|].
      exfalso. apply Hn. exists x.
      assert (x ∈ filter P devices) as Hx by (rewrite Hf; left).
      apply list_elem_of_filter in Hx. tauto. }
  pose proof (Hnil (λ c, SPICEComponent.component_type c = "V") _) as HV.
  pose proof (Hnil (λ c, SPICEComponent.component_type c ∈ ["C"; "L"]) _) as HC.
  unfold generate_analysis_commands.
  destruct (filter (λ c, SPICEComponent.component_type c = "V") devices)
    as [|v vs];
  destruct (filter (λ c, SPICEComponent.component_type c ∈ ["C"; "L"]) devices)
    as [|c cs];
  repeat case_decide; simpl; try done; exfalso; clear Hnil;
    intuition congruence.
Qed.

(** C9, as amended. The helper [_generate_analysis_commands] follows the
    rule on every device list: [.op] comes first, the DC sweep is there
    exactly when a device of kind V exists, the AC directive exactly when a
    device of kind C or L exists, the transient directive comes last, and a
    netlist assembled by [_assemble_complete_netlist] ends with [.end].
    [generate_spice_netlist] does not call the helper: when it succeeds its
    analysis commands are [.op] alone and its text ends with [.end]; when it
    fails both are empty. *)
Theorem analysis_directives :
  (∀ devices : list SPICEComponent.t,
     let commands := generate_analysis_commands devices in
     head commands = Some ".op"
     ∧ (".dc V1 0 10 0.1" ∈ commands
        ↔ ∃ d, d ∈ devices ∧ SPICEComponent.component_type d = "V")
     ∧ (".ac dec 10 1 1meg" ∈ commands
        ↔ ∃ d, d ∈ devices ∧ (SPICEComponent.component_type d = "C"
                              ∨ SPICEComponent.component_type d = "L"))
     ∧ list.last commands = Some ".tran 1n 1u"
     ∧ ∀ lines, ends_with (assemble_complete_netlist lines commands devices) ".end")
  ∧ (∀ (int_max_str_digits : nat) (py_repr : PyVal → result string)
       components connections nodes,
       ∃ r, generate_spice_netlist int_max_str_digits py_repr components
              connections nodes = Ok r
         ∧ ((Metadata.generation_success (Netlist.metadata r) = true
             ∧ Netlist.analysis_commands r = [".op"]
             ∧ ends_with (Netlist.netlist r) ".end")
            ∨ (Metadata.generation_success (Netlist.metadata r) = false
               ∧ Netlist.analysis_commands r = []
               ∧ Netlist.netlist r = ""))).
Proof.
  split.
  - intros devices commands. subst commands.
    rewrite generate_analysis_commands_spec.
    assert (∀ P : SPICEComponent.t → Prop,
              Exists P devices ↔ ∃ d, d ∈ devices ∧ P d) as Hex.
    { intros P. rewrite Exists_exists. by setoid_rewrite <- list_elem_of_In. }
    split; [done|].
    split; [|split; [|split]].
    + rewrite <- Hex. repeat case_decide; set_solver.
    + transitivity (Exists (λ d, SPICEComponent.component_type d ∈ ["C"; "L"])
                      devices).
      * repeat case_decide; set_solver.
      * rewrite Hex. set_solver.
    + repeat case_decide; done.
    + intros lines. unfold assemble_complete_netlist.
      match goal with
      | |- ends_with (join_lines (?l ++ [".end"])) _ => apply join_lines_snoc
      end.
  - intros int_max_str_digits py_repr components connections nodes.
    destruct (generate_spice_netlist_cases int_max_str_digits py_repr
                components connections nodes)
      as [(e & Hr & _)
         |(items & r & _ & _ & Hr & Hs & _ & _ & Hcmd & Htext & _)].
    + exists (failure e). split; [done|]. by right.
    + exists r. split; [done|]. left.
      split; [done|]. split; [done|]. rewrite Htext.
      change [""; ".op"; ".end"] with ([""; ".op"] ++ [".end"]).
      rewrite !app_assoc. apply join_lines_snoc.
Qed.

(** C9, counterexample. For one capacitor the generated netlist has the
    device line of a reactive device, and its analysis commands are [.op]
    alone: no AC directive and no transient directive. (The limit on
    digits is the default one; [repr], which is not called, is taken to
    give the name of the type.) *)
Lemma analysis_directives_counterexample :
  let capacitor := PyDict [("component_type", PyStr "capacitor");
                           ("designation", PyStr "1"); ("value", PyStr "100n")] in
  ∃ r, generate_spice_netlist 4300 (λ v, Ok (py_type_name v))
         (PyList [capacitor]) [] [] = Ok r
    ∧ (Device.spice_line <$> Netlist.components r) = ["C1 N1 N2 100n"]
    ∧ Netlist.analysis_commands r = [".op"]
    ∧ (".ac dec 10 1 1meg" ∉ Netlist.analysis_commands r)
    ∧ Forall (λ c, ¬ is_transient c) (Netlist.analysis_commands r).
Proof.
  eexists. split; [reflexivity|]. simpl.
  split; [done|]. split; [done|]. split; [set_solver|].
  constructor; [|constructor]. by intros [rest Hrest].
Qed.

(** C10. The result of [generate_spice_netlist] is the same for any two
    choices of connections and nodes; its node mapping is empty, and every
    device line has the literal node names [N1 N2] after the designation. *)
Theorem netlist_ignores_topology (int_max_str_digits : nat)
    (py_repr : PyVal → result string) (components : PyVal)
    (connections1 connections2 : list Connection.t)
    (nodes1 nodes2 : list Node.t) :
  generate_spice_netlist int_max_str_digits py_repr components
      connections1 nodes1
    = generate_spice_netlist int_max_str_digits py_repr components
        connections2 nodes2
  ∧ ∃ r, generate_spice_netlist int_max_str_digits py_repr components
           connections1 nodes1 = Ok r
      ∧ Netlist.node_mapping r = ∅
      ∧ Forall (device_line_shape int_max_str_digits py_repr)
          (Netlist.components r).
Proof.
  split; [done|].
  destruct (generate_spice_netlist_cases int_max_str_digits py_repr
              components connections1 nodes1)
    as [(e & Hr & _)|(items & r & _ & _ & Hr & _ & _ & Hmap & _ & _ & _ & Hall)].
  - exists (failure e). split; [done|]. split; [done|]. constructor.
  - by exists r.
Qed.

(** ** The connection network builder *)

Lemma list_set_elem_of (l : list string) (x : string) :
  x ∈ list_set l ↔ x ∈ l.
Proof. unfold list_set. by rewrite elem_of_elements, elem_of_list_to_set. Qed.

Lemma list_set_NoDup (l : list string) : NoDup (list_set l).
Proof. unfold list_set. apply NoDup_elements. Qed.

Lemma list_set_nil_iff (l : list string) : list_set l = [] ↔ l = [].
Proof.
  split.
  - intros Hn. destruct l as [|x l]; [done|].
    assert (x ∈ list_set (x :: l)) as Hx by (apply list_set_elem_of; left).
    rewrite Hn in Hx. by apply not_elem_of_nil in Hx.
  - intros ->. unfold list_set. simpl. apply elements_empty.
Qed.

(** A duplicate-free list whose members are all [x] and which has a member
    is [[x]]. *)
Lemma NoDup_all_same (l : list string) (x : string) :
  NoDup l → l ≠ [] → (∀ y, y ∈ l → y = x) → l = [x].
Proof.
  intros Hnd Hne Hall. destruct l as [|a [|b l]]; [done| |].
  - f_equal. apply Hall. left.
  - exfalso. assert (a = x) by (apply Hall; left).
    assert (b = x) by (apply Hall; right; left). subst.
    apply list.NoDup_cons in Hnd as [Hnotin _]. apply Hnotin. left.
Qed.

Lemma nearby_components_spec (conn : Classified.t) (pins : list Pin.t) :
  nearby_components conn pins = near_component_ids conn pins.
Proof.
  unfold nearby_components, near_component_ids.
  enough (∀ acc,
    foldl (λ connected_components pin,
             if decide (near conn pin)
             then connected_components ++ [Pin.component_id pin]
             else connected_components) acc pins
    = acc ++ (Pin.component_id <$> filter (near conn) pins)) as H by apply H.
  induction pins as [|pin pins IH]; intros acc; simpl.
  - by rewrite app_nil_r.
  - rewrite IH. destruct (decide (near conn pin)) as [Hn|Hn].
    + rewrite filter_cons_True by done. simpl. by rewrite <- app_assoc.
    + by rewrite filter_cons_False by done.
Qed.

Lemma near_component_ids_nil (conn : Classified.t) (pins : list Pin.t) :
  near_component_ids conn pins = [] ↔ ¬ Exists (near conn) pins.
Proof.
  unfold near_component_ids. rewrite list.Exists_exists. split.
  - intros Hf%fmap_nil_inv (pin & Hin & Hn).
    by apply (filter_nil_not_elem_of _ _ pin Hf).
  - intros Hn. destruct (filter (near conn) pins) as [|x xs] eqn:Hf; [done|].
    exfalso. apply Hn. exists x.
    assert (x ∈ filter (near conn) pins) as Hx by (rewrite Hf; left).
    apply list_elem_of_filter in Hx. tauto.
Qed.

Lemma add_connection_spec (pins : list Pin.t) (connections : list Connection.t)
    (conn : Classified.t) :
  add_connection pins connections conn
  = connections ++ (connection_of pins <$> filter (λ c, Exists (near c) pins) [conn]).
Proof.
  unfold add_connection, connection_of. rewrite nearby_components_spec.
  destruct (decide (Exists (near conn) pins)) as [Hex|Hex].
  - rewrite filter_cons_True by done. simpl.
    rewrite decide_True; [done|].
    destruct (list_set (near_component_ids conn pins)) eqn:Hl; simpl; [|lia].
    apply list_set_nil_iff, near_component_ids_nil in Hl. done.
  - rewrite filter_cons_False by done. simpl. rewrite app_nil_r.
    apply near_component_ids_nil in Hex. rewrite Hex.
    rewrite decide_False; [done|].
    assert (list_set [] = []) as -> by (by apply list_set_nil_iff). simpl. lia.
Qed.

Lemma build_connection_network_spec (segments : list Classified.t)
    (pins : list Pin.t) (components : list Component.t) :
  build_connection_network segments pins components
  = connection_of pins <$> filter (λ c, Exists (near c) pins) segments.
Proof.
  unfold build_connection_network.
  enough (∀ acc,
    foldl (add_connection pins) acc segments
    = acc ++ (connection_of pins <$> filter (λ c, Exists (near c) pins) segments))
    as H by apply H.
  induction segments as [|conn segments IH]; intros acc; simpl.
  - by rewrite app_nil_r.
  - rewrite IH, add_connection_spec, <- app_assoc. f_equal.
    destruct (decide (Exists (near conn) pins)).
    + by rewrite !filter_cons_True by done.
    + by rewrite !filter_cons_False by done.
Qed.

(** In range, an [int32] is the integer itself. *)
Lemma int32_wrap_in_range (z : Z) : Int32.in_range z → Int32.wrap z = z.
Proof.
  unfold Int32.in_range, Int32.min_value, Int32.max_value, Int32.wrap.
  intros Hz. rewrite Z.mod_small; lia.
Qed.

(** The squared length of a segment whose coordinates are between 0 and
    32767 is computed without wrap-around. *)
Lemma int32_squared_length (x1 y1 x2 y2 : Z) :
  (0 ≤ x1 ≤ 32767 ∧ 0 ≤ y1 ≤ 32767 ∧ 0 ≤ x2 ≤ 32767 ∧ 0 ≤ y2 ≤ 32767)%Z
  → Int32.sub x2 x1 = (x2 - x1)%Z
    ∧ Int32.sub y2 y1 = (y2 - y1)%Z
    ∧ Int32.add (Int32.square (Int32.sub x2 x1))
                (Int32.square (Int32.sub y2 y1))
      = ((x2 - x1) ^ 2 + (y2 - y1) ^ 2)%Z.
Proof.
  intros (Hx1 & Hy1 & Hx2 & Hy2).
  assert (∀ a b, (0 ≤ a ≤ 32767 → 0 ≤ b ≤ 32767
                  → Int32.sub b a = b - a
                    ∧ Int32.square (b - a) = (b - a) ^ 2
                    ∧ 0 ≤ (b - a) ^ 2 ≤ 32767 * 32767)%Z) as Hd.
  { intros a b Ha Hb.
    assert (0 ≤ (b - a) ^ 2 ≤ 32767 * 32767)%Z as Hsq by nia.
    split; [|split; [|done]].
    - apply int32_wrap_in_range.
      unfold Int32.in_range, Int32.min_value, Int32.max_value. lia.
    - unfold Int32.square. replace ((b - a) * (b - a))%Z with ((b - a) ^ 2)%Z
        by lia.
      apply int32_wrap_in_range.
      unfold Int32.in_range, Int32.min_value, Int32.max_value. lia. }
  destruct (Hd x1 x2 Hx1 Hx2) as (-> & -> & Hsx).
  destruct (Hd y1 y2 Hy1 Hy2) as (-> & -> & Hsy).
  split; [done|]. split; [done|].
  apply int32_wrap_in_range.
  unfold Int32.in_range, Int32.min_value, Int32.max_value. lia.
Qed.

(** A loop whose body never raises is a fold. *)
Lemma for_each_foldl {A B} (body : A → B → result A) (f : A → B → A)
    (items : list B) :
  (∀ a item, item ∈ items → body a item = Ok (f a item))
  → ∀ a, for_each body a items = Ok (foldl f a items).
Proof.
  induction items as [|item items IH]; intros Hbody a; [done|].
  simpl. rewrite Hbody by left. simpl.
  apply IH. intros a' item' Hin. apply Hbody. by right.
Qed.

Lemma int32_dist_sq_in_image (p q : Point) :
  in_image p → in_image q → int32_dist_sq p q = Ok (dist_sq p q).
Proof.
  intros [Hp1 Hp2] [Hq1 Hq2]. unfold int32_dist_sq, int32_sub_int, dist_sq.
  rewrite !decide_True
    by (unfold Int32.in_range, Int32.min_value, Int32.max_value; lia).
  simpl.
  destruct (int32_squared_length q.1 q.2 p.1 p.2) as (-> & -> & ->); done.
Qed.

Lemma near_int32_in_image (conn : Classified.t) (pin : Pin.t) :
  in_image (Classified.start_point conn)
  → in_image (Classified.end_point conn)
  → in_image (Pin.position pin)
  → near_int32 conn pin = Ok (bool_decide (near conn pin)).
Proof.
  intros Hs He Hp. unfold near_int32.
  rewrite !int32_dist_sq_in_image by done. simpl. f_equal.
  unfold sqrt_below, near.
  assert (∀ p q, (0 ≤ dist_sq p q)%Z) as Hnonneg
    by (intros p q; unfold dist_sq; nia).
  pose proof (Hnonneg (Classified.start_point conn) (Pin.position pin)).
  pose proof (Hnonneg (Classified.end_point conn) (Pin.position pin)).
  repeat case_bool_decide; simpl; try done; tauto.
Qed.

(** For coordinates between 0 and 32767 nothing wraps around and nothing
    is raised: the result is the one of exact arithmetic. *)
Lemma build_connection_network_int32_in_image (segments : list Classified.t)
    (pins : list Pin.t) (components : list Component.t) :
  Forall (λ conn, in_image (Classified.start_point conn)
                  ∧ in_image (Classified.end_point conn)) segments
  → Forall (λ pin, in_image (Pin.position pin)) pins
  → build_connection_network_int32 segments pins components
    = Ok (build_connection_network segments pins components).
Proof.
  intros Hsegments Hpins.
  rewrite list.Forall_forall in Hsegments.
  rewrite list.Forall_forall in Hpins.
  unfold build_connection_network_int32, build_connection_network.
  apply for_each_foldl. intros connections conn Hconn.
  destruct (Hsegments conn Hconn) as [Hs He].
  unfold add_connection_int32, add_connection, nearby_components_int32,
    nearby_components.
  rewrite (for_each_foldl _
             (λ connected_components pin,
                if decide (near conn pin)
                then connected_components ++ [Pin.component_id pin]
                else connected_components)); [done|].
  intros connected_components pin Hpin.
  rewrite near_int32_in_image by auto. simpl.
  by case_bool_decide; [rewrite decide_True|rewrite decide_False].
Qed.

(** C6. For coordinates between 0 and 32767 the builder does what is
    claimed: the connections are those of the segments that have a pin
    within the proximity threshold of an endpoint (distance less than 25),
    in the order of the segments; a segment with no such pin gives none;
    the [connected_components] of a connection have no duplicate and are
    the owning components of the near pins; when these pins all belong to
    one component the connection is kept, with that component alone.
    Beyond, the [int32] squares wrap around: a wire from (0, 100) to
    (200, 100) and a resistor whose pins are at (65536, 100) and
    (65576, 100), more than 65000 pixels from both ends of the wire, give a
    connection between the wire and the resistor, where exact distances
    give none. *)
Theorem connection_network_builder :
  (∀ (segments : list Classified.t) (pins : list Pin.t)
     (components : list Component.t),
     Forall (λ conn, in_image (Classified.start_point conn)
                     ∧ in_image (Classified.end_point conn)) segments
     → Forall (λ pin, in_image (Pin.position pin)) pins
     → build_connection_network_int32 segments pins components
       = Ok (connection_of pins
               <$> filter (λ conn, Exists (near conn) pins) segments))
  ∧ (∀ (pins : list Pin.t) (conn : Classified.t),
       let connection := connection_of pins conn in
       Connection.start_point connection = Classified.start_point conn
       ∧ Connection.end_point connection = Classified.end_point conn
       ∧ NoDup (Connection.connected_components connection)
       ∧ (∀ id, id ∈ Connection.connected_components connection
                ↔ ∃ pin, pin ∈ pins ∧ near conn pin ∧ Pin.component_id pin = id)
       ∧ (∀ id, Exists (near conn) pins
                → (∀ pin, pin ∈ pins → near conn pin → Pin.component_id pin = id)
                → Connection.connected_components connection = [id]))
  ∧ (let far := resistor "R9" 65536 80 65576 120 in
     let pins := extract_component_pins [far] in
     let wire := {| Classified.id := "conn_0";
                    Classified.start_point := (0, 100)%Z;
                    Classified.end_point := (200, 100)%Z;
                    Classified.connection_type := "wire";
                    Classified.confidence := 0.9999999999999999%float;
                    Classified.length := 200%float;
                    Classified.angle := 0%float;
                    Classified.thickness := 2%float;
                    Classified.continuity := 1%float |} in
     pins = [left_pin "R9" 65536 80 65576 120;
             right_pin "R9" 65536 80 65576 120]
     ∧ Forall (λ pin,
                 (65000 ^ 2 < dist_sq (Classified.start_point wire)
                                      (Pin.position pin))%Z
                 ∧ (65000 ^ 2 < dist_sq (Classified.end_point wire)
                                        (Pin.position pin))%Z) pins
     ∧ build_connection_network [wire] pins [far] = []
     ∧ build_connection_network_int32 [wire] pins [far]
       = Ok [make_connection wire ["R9"]]).
Proof.
  split; [|split].
  - intros segments pins components Hsegments Hpins.
    rewrite build_connection_network_int32_in_image by done.
    by rewrite build_connection_network_spec.
  - intros pins conn connection. subst connection. unfold connection_of. simpl.
    assert (∀ id, id ∈ list_set (near_component_ids conn pins)
                  ↔ ∃ pin, pin ∈ pins ∧ near conn pin ∧ Pin.component_id pin = id)
      as Hmem.
    { intros id. rewrite list_set_elem_of. unfold near_component_ids.
      rewrite list_elem_of_fmap. setoid_rewrite list_elem_of_filter.
      naive_solver. }
    split; [done|]. split; [done|]. split; [apply list_set_NoDup|].
    split; [done|].
    intros id Hex Hall. apply NoDup_all_same.
    + apply list_set_NoDup.
    + intros Hnil. apply list_set_nil_iff, near_component_ids_nil in Hnil. done.
    + intros y Hy. apply Hmem in Hy as (pin & Hin & Hn & <-). by apply Hall.
  - intros far pins wire. split; [reflexivity|]. split.
    + repeat constructor; vm_compute; reflexivity.
    + split; vm_compute; reflexivity.
Qed.

(** C6, an instance in range: a wire that ends near the right pin of a
    lone resistor is kept, with that resistor as its only component. *)
Lemma connection_network_builder_witness :
  let R1 := {| Component.id := "R1"; Component.bbox := (80, 180, 120, 220)%Z;
               Component.component_type := Some "resistor" |} in
  let pins := extract_component_pins [R1] in
  let wire := {| Classified.id := "conn_0";
                 Classified.start_point := (125, 200)%Z;
                 Classified.end_point := (275, 200)%Z;
                 Classified.connection_type := "wire";
                 Classified.confidence := 1%float;
                 Classified.length := 150%float;
                 Classified.angle := 0%float;
                 Classified.thickness := 2%float;
                 Classified.continuity := 1%float |} in
  Exists (near wire) pins
  ∧ build_connection_network_int32 [wire] pins [R1]
    = Ok [connection_of pins wire]
  ∧ Connection.connected_components (connection_of pins wire) = ["R1"].
Proof.
  intros R1 pins wire.
  assert (Exists (near wire) pins) as Hex.
  { apply (bool_decide_unpack _). vm_compute. reflexivity. }
  split; [exact Hex|].
  destruct connection_network_builder as (Hrange & Hconn & _).
  split.
  - rewrite (Hrange [wire] pins [R1]).
    + by rewrite filter_cons_True by done.
    + repeat constructor; vm_compute; done.
    + repeat constructor; vm_compute; done.
  - destruct (Hconn pins wire) as (_ & _ & _ & _ & Hone).
    apply Hone; [exact Hex|].
    intros pin Hin _.
    assert (Forall (λ pin, Pin.component_id pin = "R1") pins) as Hall
      by (repeat constructor).
    rewrite list.Forall_forall in Hall. by apply Hall.
Defined.

(** ** The connection classifier *)

Section ClassifierProperties.
Context {Image : Type}.
Variable np_sqrt : Z → float.
Variable arctan2_degrees : Z → Z → float.
Variable estimate_line_thickness : Image → Segment → float.
Variable check_line_continuity : Image → Segment → float.




End ClassifierProperties.

(** ** No component *)

Lemma build_connection_network_no_pins (segments : list Classified.t)
    (components : list Component.t) :
  build_connection_network segments [] components = [].
Proof.
  rewrite build_connection_network_spec.
  induction segments as [|conn segments IH]; [done|].
  rewrite filter_cons_False; [done|]. by intros Hex%Exists_nil.
Qed.

(** C4. With no component, whatever the line segments, the pipeline gives
    no connection and no node, and the netlist generator returns the two
    header comments, [.op] and [.end] (with the two empty lines the source
    puts after the header and before [.op]), no device, and
    [generation_success] true. *)
Theorem no_component_pipeline {Image : Type} (np_sqrt : Z → float)
    (arctan2_degrees : Z → Z → float)
    (estimate_line_thickness check_line_continuity : Image → Segment → float)
    (line_segments : list Segment) (image : Image)
    (int_max_str_digits : nat) (py_repr : PyVal → result string)
    (connections : list Connection.t) (nodes : list Node.t) :
  detect_connections_from np_sqrt arctan2_degrees estimate_line_thickness
    check_line_continuity line_segments image [] = ([], [])
  ∧ generate_spice_netlist int_max_str_digits py_repr (PyList []) connections
      nodes
    = Ok {| Netlist.netlist :=
              join_lines ["* Generated SPICE Netlist";
                          "* Hardware AI Orchestrator"; ""; ""; ".op"; ".end"];
            Netlist.components := [];
            Netlist.node_mapping := ∅;
            Netlist.analysis_commands := [".op"];
            Netlist.metadata :=
              {| Metadata.generation_success := true;
                 Metadata.total_components := Some 0;
                 Metadata.error := None |} |}.
Proof.
  split; [|done].
  unfold detect_connections_from. simpl.
  change (extract_component_pins []) with (@nil Pin.t).
  by rewrite build_connection_network_no_pins.
Qed.

(** ** Isolated components *)

Lemma foldl_invariant {A B} (P : A → Prop) (f : A → B → A) (l : list B) :
  ∀ a, P a → (∀ a b, b ∈ l → P a → P (f a b)) → P (foldl f a l).
Proof.
  induction l as [|b l IH]; intros a Ha Hf; simpl; [done|].
  apply IH.
  - apply Hf; [left|done].
  - intros a' b' Hb'. apply Hf. by right.
Qed.

Lemma elem_of_imap_pair {A} (l : list A) (i : nat) (x : A) :
  (i, x) ∈ imap pair l ↔ l !! i = Some x.
Proof.
  rewrite list_elem_of_lookup. split.
  - intros [j Hj]. rewrite list_lookup_imap in Hj.
    destruct (l !! j) eqn:Hl; simpl in Hj; [|done]. by simplify_eq.
  - intros Hl. exists i. by rewrite list_lookup_imap, Hl.
Qed.

Lemma comp_id_to_idx_lookup (components : list Component.t) (id : string) (k : nat) :
  comp_id_to_idx components !! id = Some k
  → ∃ comp, components !! k = Some comp ∧ Component.id comp = id.
Proof.
  unfold comp_id_to_idx. revert id k.
  induction components as [|comp components IH] using rev_ind; intros id k.
  - simpl. by rewrite lookup_empty.
  - rewrite imap_app, foldl_app. simpl. rewrite Nat.add_0_r.
    destruct (decide (Component.id comp = id)) as [<-|Hne].
    + rewrite lookup_insert_eq. intros [= <-]. exists comp.
      split; [|done]. by rewrite lookup_app_r, Nat.sub_diag.
    + rewrite lookup_insert_ne by done. intros Hk.
      destruct (IH id k Hk) as (c & Hc & Hid). exists c.
      split; [|done]. by apply lookup_app_l_Some.
Qed.

Lemma matrix_set_length (idx1 idx2 : nat) (matrix : list (list Z)) :
  length (matrix_set idx1 idx2 matrix) = length matrix.
Proof. apply length_alter. Qed.

Lemma matrix_set_entry (idx1 idx2 : nat) (matrix : list (list Z))
    (k j : nat) (row : list Z) (v : Z) :
  matrix_set idx1 idx2 matrix !! k = Some row → row !! j = Some v
  → k = idx1 ∨ ∃ row0, matrix !! k = Some row0 ∧ row0 !! j = Some v.
Proof.
  unfold matrix_set. rewrite list_lookup_alter.
  destruct (decide (idx1 = k)) as [->|Hne]; [by left|].
  intros Hrow Hv. right. by exists row.
Qed.

Section Matrix.
Variable connections : list Connection.t.
Variable index : gmap string nat.

Lemma mark_pair_entries (c : Connection.t) (comp_id_1 comp_id_2 : string)
    (matrix : list (list Z)) :
  c ∈ connections
  → comp_id_1 ∈ Connection.connected_components c
  → comp_id_2 ∈ Connection.connected_components c
  → entries_touched connections index matrix
  → entries_touched connections index (mark_pair index comp_id_1 matrix comp_id_2).
Proof.
  intros Hc H1 H2 Hinv. unfold mark_pair.
  destruct (index !! comp_id_1) as [idx1|] eqn:Hi1; [|done].
  destruct (index !! comp_id_2) as [idx2|] eqn:Hi2; [|done].
  intros k row j v Hrow Hv Hnz.
  destruct (matrix_set_entry _ _ _ _ _ _ _ Hrow Hv) as [->|(row1 & Hrow1 & Hv1)].
  { by exists c, comp_id_2. }
  destruct (matrix_set_entry _ _ _ _ _ _ _ Hrow1 Hv1) as [->|(row0 & Hrow0 & Hv0)].
  { by exists c, comp_id_1. }
  by apply (Hinv k row0 j v).
Qed.

Lemma mark_connection_entries (c : Connection.t) (matrix : list (list Z)) :
  c ∈ connections
  → entries_touched connections index matrix
  → entries_touched connections index (mark_connection index matrix c).
Proof.
  intros Hc Hinv. unfold mark_connection.
  apply (foldl_invariant (entries_touched connections index)); [done|].
  intros m [i comp_id_1] Hin Hm.
  apply elem_of_imap_pair in Hin.
  apply (foldl_invariant (entries_touched connections index)); [done|].
  intros m' comp_id_2 Hin2 Hm'.
  apply (mark_pair_entries c); [done| | |done].
  - by eapply list_elem_of_lookup_2.
  - by eapply subseteq_drop.
Qed.

Lemma mark_connection_length (c : Connection.t) (matrix : list (list Z)) :
  length (mark_connection index matrix c) = length matrix.
Proof.
  unfold mark_connection.
  apply (foldl_invariant (λ m, length m = length matrix)); [done|].
  intros m [i comp_id_1] _ Hm.
  apply (foldl_invariant (λ m, length m = length matrix)); [done|].
  intros m' comp_id_2 _ Hm'. unfold mark_pair.
  destruct (index !! comp_id_1); [|done].
  destruct (index !! comp_id_2); [|done].
  by rewrite !matrix_set_length.
Qed.
End Matrix.

Lemma build_connectivity_matrix_length (connections : list Connection.t)
    (components : list Component.t) :
  length (build_connectivity_matrix connections components) = length components.
Proof.
  unfold build_connectivity_matrix.
  apply (foldl_invariant (λ m, length m = length components)).
  - by rewrite length_replicate.
  - intros m c _ Hm. by rewrite mark_connection_length.
Qed.

Lemma build_connectivity_matrix_entries (connections : list Connection.t)
    (components : list Component.t) :
  entries_touched connections (comp_id_to_idx components)
    (build_connectivity_matrix connections components).
Proof.
  unfold build_connectivity_matrix.
  apply (foldl_invariant
           (entries_touched connections (comp_id_to_idx components))).
  - intros k row j v Hrow Hv Hnz.
    apply lookup_replicate in Hrow as [-> _].
    apply lookup_replicate in Hv as [-> _]. done.
  - intros m c Hc Hm. by apply mark_connection_entries.
Qed.

Lemma sum_Z_zero (row : list Z) :
  (∀ j v, row !! j = Some v → v = 0%Z) → sum_Z row = 0%Z.
Proof.
  induction row as [|x row IH]; intros Hall; simpl; [done|].
  rewrite (Hall 0%nat x) by done. rewrite IH; [done|].
  intros j v Hv. by apply (Hall (S j)).
Qed.

(** The row of a component that no connection names is all zero. *)
Lemma isolated_row_sum (connections : list Connection.t)
    (components : list Component.t) (i : nat) (comp : Component.t) :
  components !! i = Some comp
  → (∀ c, c ∈ connections → Component.id comp ∉ Connection.connected_components c)
  → ∃ row, build_connectivity_matrix connections components !! i = Some row
           ∧ sum_Z row = 0%Z.
Proof.
  intros Hcomp Hfree.
  destruct (lookup_lt_is_Some_2 (build_connectivity_matrix connections components) i)
    as [row Hrow].
  { rewrite build_connectivity_matrix_length. by eapply lookup_lt_Some. }
  exists row. split; [done|]. apply sum_Z_zero. intros j v Hv.
  destruct (decide (v = 0%Z)) as [|Hnz]; [done|]. exfalso.
  destruct (build_connectivity_matrix_entries connections components
              i row j v Hrow Hv Hnz) as (c & id & Hc & Hid & Hidx).
  apply comp_id_to_idx_lookup in Hidx as (comp' & Hcomp' & <-).
  rewrite Hcomp in Hcomp'. injection Hcomp' as <-. by apply (Hfree c).
Qed.

(** [_find_isolated_components] does not fail on a matrix with no more rows
    than there are components, and lists every component with a zero row. *)
Lemma find_isolated_components_spec (matrix : list (list Z))
    (components : list Component.t) :
  (length matrix ≤ length components)%nat
  → ∃ isolated, find_isolated_components matrix components = Some isolated
      ∧ ∀ i row comp, matrix !! i = Some row → sum_Z row = 0%Z
                      → components !! i = Some comp
                      → Component.id comp ∈ isolated.
Proof.
  unfold find_isolated_components.
  induction matrix as [|row matrix IH] using rev_ind; intros Hlen.
  - exists []. split; [done|]. intros i row comp Hrow. done.
  - rewrite length_app in Hlen. simpl in Hlen.
    destruct IH as (isolated & Hiso & Hmem); [lia|].
    rewrite imap_app, foldl_app, Hiso. simpl. rewrite Nat.add_0_r.
    destruct (lookup_lt_is_Some_2 components (length matrix)) as [c Hc]; [lia|].
    destruct (decide (sum_Z row = 0%Z)) as [Hz|Hnz].
    + rewrite Hc. simpl. eexists. split; [done|].
      intros i row' comp Hrow' Hsum Hcomp.
      apply lookup_app_Some in Hrow' as [Hrow'|[Hge Hrow']].
      * apply elem_of_app. left. by eapply Hmem.
      * apply list_lookup_singleton_Some in Hrow' as [Hi ->].
        assert (i = length matrix) as -> by lia.
        rewrite Hc in Hcomp. injection Hcomp as <-.
        apply elem_of_app. right. left.
    + exists isolated. split; [done|].
      intros i row' comp Hrow' Hsum Hcomp.
      apply lookup_app_Some in Hrow' as [Hrow'|[Hge Hrow']].
      * by eapply Hmem.
      * apply list_lookup_singleton_Some in Hrow' as [Hi ->]. done.
Qed.

(** C8. A component that is in no connection's [connected_components] has
    a row of sum zero in the adjacency matrix, is in the
    [isolated_components] of the connection matrix, and the potential
    issues then have an issue of type [isolation] and severity [warning]. *)
Theorem isolated_component_reported (connections : list Connection.t)
    (nodes : list Node.t) (components : list Component.t)
    (i : nat) (comp : Component.t) :
  components !! i = Some comp
  → (∀ c, c ∈ connections → Component.id comp ∉ Connection.connected_components c)
  → (∃ row, build_connectivity_matrix connections components !! i = Some row
            ∧ sum_Z row = 0%Z)
    ∧ (∃ m, build_connection_matrix connections components = Some m
            ∧ ConnectionMatrix.adjacency_matrix m
              = build_connectivity_matrix connections components
            ∧ Component.id comp ∈ ConnectionMatrix.isolated_components m)
    ∧ (∃ issues, identify_potential_issues connections nodes components = Some issues
            ∧ ∃ issue, issue ∈ issues ∧ Issue.type issue = "isolation"
                       ∧ Issue.severity issue = "warning").
Proof.
  intros Hcomp Hfree.
  destruct (isolated_row_sum connections components i comp Hcomp Hfree)
    as (row & Hrow & Hsum).
  destruct (find_isolated_components_spec
              (build_connectivity_matrix connections components) components)
    as (isolated & Hiso & Hmem).
  { by rewrite build_connectivity_matrix_length. }
  assert (Component.id comp ∈ isolated) as Hin by (by eapply Hmem).
  split; [by exists row|]. split.
  - unfold build_connection_matrix. rewrite Hiso. simpl. by eexists.
  - unfold identify_potential_issues. rewrite Hiso. simpl.
    eexists. split; [done|].
    destruct isolated as [|x isolated]; [by apply not_elem_of_nil in Hin|].
    exists {| Issue.type := "isolation";
              Issue.severity := "warning";
              Issue.message :=
                "Found " +:+ pretty (length (x :: isolated))
                +:+ " isolated components: "
                +:+ String.concat ", " (x :: isolated) |}.
    split; [|done].
    destruct (filter _ connections); destruct (filter _ nodes);
      rewrite ?elem_of_app; repeat left.
Qed.

(** C8, an instance: two resistors joined by a wire and a third component
    that no connection names. *)
Lemma isolated_component_reported_witness :
  let R1 := {| Component.id := "R1"; Component.bbox := (80, 180, 120, 220)%Z;
               Component.component_type := Some "resistor" |} in
  let R2 := {| Component.id := "R2"; Component.bbox := (280, 180, 320, 220)%Z;
               Component.component_type := Some "resistor" |} in
  let C1 := {| Component.id := "C1"; Component.bbox := (500, 500, 540, 540)%Z;
               Component.component_type := Some "capacitor" |} in
  let wire := {| Connection.start_point := (125, 200)%Z;
                 Connection.end_point := (275, 200)%Z;
                 Connection.path := [(125, 200)%Z; (275, 200)%Z];
                 Connection.connection_type := "wire";
                 Connection.confidence := 1%float;
                 Connection.connected_components := ["R1"; "R2"] |} in
  (∃ row, build_connectivity_matrix [wire] [R1; R2; C1] !! 2%nat = Some row
          ∧ sum_Z row = 0%Z)
  ∧ (∃ m, build_connection_matrix [wire] [R1; R2; C1] = Some m
          ∧ ConnectionMatrix.adjacency_matrix m
            = build_connectivity_matrix [wire] [R1; R2; C1]
          ∧ "C1" ∈ ConnectionMatrix.isolated_components m)
  ∧ (∃ issues, identify_potential_issues [wire] [] [R1; R2; C1] = Some issues
          ∧ ∃ issue, issue ∈ issues ∧ Issue.type issue = "isolation"
                     ∧ Issue.severity issue = "warning").
Proof.
  intros R1 R2 C1 wire.
  apply (isolated_component_reported [wire] [] [R1; R2; C1] 2 C1).
  - reflexivity.
  - intros c Hc. apply list_elem_of_singleton in Hc. subst c. simpl.
    intros Hin. apply (bool_decide_pack _) in Hin. vm_compute in Hin.
    exact Hin.
Defined.

(** ** The breadth-first search *)

#[global] Instance grows_preorder : PreOrder grows.
Proof.
  split.
  - intros st. unfold grows. set_solver.
  - intros st1 st2 st3. unfold grows. set_solver.
Qed.

Lemma foldl_preorder {A B} (R : relation A) `{!PreOrder R} (f : A → B → A)
    (l : list B) :
  (∀ a b, R a (f a b)) → ∀ a, R a (foldl f a l).
Proof.
  intros Hf. induction l as [|b l IH]; intros a; simpl; [done|].
  by transitivity (f a b).
Qed.

Lemma foldl_ensures {A B} (R : relation A) `{!PreOrder R} (Q : A → Prop)
    (f : A → B → A) (l : list B) (b : B) :
  (∀ a x, R a (f a x)) → (∀ a a', R a a' → Q a → Q a') → (∀ a, Q (f a b))
  → b ∈ l → ∀ a, Q (foldl f a l).
Proof.
  intros Hf HQ Hb. induction l as [|x l IH]; intros Hin a.
  - by apply not_elem_of_nil in Hin.
  - simpl. apply list.elem_of_cons in Hin as [<-|Hin].
    + apply (HQ (f a b)); [|done]. by apply foldl_preorder.
    + by apply IH.
Qed.

Section Search.
Variable connections : list Connection.t.
Variable all_pins : list Pin.t.

Lemma visit_pin_grows comp_id st pin : grows st (Bfs.visit_pin comp_id st pin).
Proof.
  unfold grows, Bfs.visit_pin. case_decide; simpl; set_solver.
Qed.

Lemma visit_pins_grows comp_id st : grows st (Bfs.visit_pins all_pins comp_id st).
Proof.
  unfold Bfs.visit_pins. apply foldl_preorder; [apply _|].
  intros. apply visit_pin_grows.
Qed.

Lemma visit_component_grows current_pin st comp_id :
  grows st (Bfs.visit_component all_pins current_pin st comp_id).
Proof.
  unfold Bfs.visit_component. case_decide; [apply visit_pins_grows|done].
Qed.

Lemma visit_connection_grows current_pin st connection :
  grows st (Bfs.visit_connection all_pins current_pin st connection).
Proof.
  unfold Bfs.visit_connection. case_decide; [|done].
  apply foldl_preorder; [apply _|]. intros. apply visit_component_grows.
Qed.

Lemma visit_grows current_pin st :
  grows st (Bfs.visit connections all_pins current_pin st).
Proof.
  unfold Bfs.visit. apply foldl_preorder; [apply _|].
  intros. apply visit_connection_grows.
Qed.

(** After the visit of [current_pin], every edge from it leads to a
    processed identifier. *)
Lemma visit_closes current_pin st :
  closed connections all_pins current_pin
    (Bfs.visit connections all_pins current_pin st).
Proof.
  intros q (Hq & c & Hc & Hp & Hqc & Hne).
  set (Q := λ st', Pin.pin_id q ∈ Bfs.processed st').
  assert (∀ a a', grows a a' → Q a → Q a') as Hmono.
  { unfold grows, Q. set_solver. }
  change (Q (Bfs.visit connections all_pins current_pin st)). unfold Bfs.visit.
  apply (foldl_ensures grows Q _ connections c);
    [intros; apply visit_connection_grows|done| |done].
  intros st1. unfold Bfs.visit_connection. rewrite decide_True by done.
  apply (foldl_ensures grows Q _ _ (Pin.component_id q));
    [intros; apply visit_component_grows|done| |done].
  intros st2. unfold Bfs.visit_component. rewrite decide_True by done.
  unfold Bfs.visit_pins.
  apply (foldl_ensures grows Q _ all_pins q);
    [intros; apply visit_pin_grows|done| |done].
  intros st3. unfold Q, Bfs.visit_pin.
  case_decide as Hd; simpl; [set_solver|].
  apply not_and_l in Hd as [Hd|Hd]; [done|]. by apply dec_stable.
Qed.
End Search.

Lemma size_pin_ids (pins : list Pin.t) : (size (pin_ids pins) ≤ length pins)%nat.
Proof.
  unfold pin_ids. induction pins as [|p pins IH]; [done|].
  rewrite fmap_cons, list_to_set_cons, size_union_alt, size_singleton.
  simpl length. etrans; [|apply le_n_S, IH].
  apply le_n_S, subseteq_size. set_solver.
Qed.

(** Two pins of a list with distinct identifiers are equal when their
    identifiers are. *)
Lemma unique_pin_id (pins : list Pin.t) (p q : Pin.t) :
  NoDup (Pin.pin_id <$> pins) → p ∈ pins → q ∈ pins
  → Pin.pin_id p = Pin.pin_id q → p = q.
Proof.
  intros Hnd Hp Hq Heq.
  apply list_elem_of_lookup in Hp as [i Hi].
  apply list_elem_of_lookup in Hq as [j Hj].
  assert (i = j) as ->.
  { apply (NoDup_lookup _ i j (Pin.pin_id p) Hnd).
    - by rewrite list_lookup_fmap, Hi.
    - by rewrite list_lookup_fmap, Hj, Heq. }
  congruence.
Qed.

Lemma elem_of_pin_ids (pins : list Pin.t) (id : string) :
  id ∈ pin_ids pins ↔ ∃ p, p ∈ pins ∧ Pin.pin_id p = id.
Proof.
  unfold pin_ids. rewrite elem_of_list_to_set, list_elem_of_fmap. naive_solver.
Qed.

Section SearchInvariant.
Variable connections : list Connection.t.
Variable all_pins : list Pin.t.
Variable start_pin : Pin.t.

(** Appending a pin reached by an edge from the pin being visited keeps
    the invariant and the measure. *)
Lemma add_pin_invariant (current_pin pin : Pin.t) (st : Bfs.state) (n : nat) :
  bfs_invariant connections all_pins start_pin [current_pin] st
  → bfs_measure all_pins st = n
  → pin_step connections all_pins current_pin pin
  → Pin.pin_id pin ∉ Bfs.processed st
  → bfs_invariant connections all_pins start_pin [current_pin] (Bfs.add_pin st pin)
    ∧ bfs_measure all_pins (Bfs.add_pin st pin) = n.
Proof.
  intros (Hproc & Hnd & Hstart & Hreach & visited & Hsplit & Hclosed)
    Hmeasure Hstep Hnew.
  split; [split; [|split; [|split; [|split]]]|]; simpl.
  - unfold pin_ids in *. by rewrite fmap_app, list_to_set_app_L, Hproc; set_solver.
  - rewrite fmap_app. apply list.NoDup_app. split; [done|]. split.
    + intros x Hx ->%list_elem_of_singleton. apply Hnew.
      rewrite Hproc. unfold pin_ids. by apply elem_of_list_to_set.
    + apply NoDup_singleton.
  - apply elem_of_app. by left.
  - intros q [Hq| ->%list_elem_of_singleton]%elem_of_app; [by apply Hreach|].
    apply rtc_r with current_pin; [|done]. apply Hreach. rewrite Hsplit.
    apply elem_of_app. right. apply elem_of_app. left. left.
  - exists visited. split.
    + rewrite Hsplit. by rewrite <- !app_assoc.
    + intros p Hp q Hq. simpl. apply elem_of_union. left. by apply (Hclosed p).
  - unfold bfs_measure in *. simpl. rewrite length_app. simpl.
    destruct Hstep as [Hin _].
    assert (Pin.pin_id pin ∈ pin_ids all_pins) as Hid
      by (apply elem_of_pin_ids; by exists pin).
    assert (pin_ids all_pins ∖ Bfs.processed st
            = {[Pin.pin_id pin]}
              ∪ pin_ids all_pins ∖ (Bfs.processed st ∪ {[Pin.pin_id pin]}))
      as Heq.
    { apply set_eq. intros x. destruct (decide (x = Pin.pin_id pin)); set_solver. }
    rewrite Heq, size_union, size_singleton in Hmeasure by set_solver. lia.
Qed.

Lemma visit_invariant (current_pin : Pin.t) (st : Bfs.state) (n : nat) :
  bfs_invariant connections all_pins start_pin [current_pin] st
  ∧ bfs_measure all_pins st = n
  → bfs_invariant connections all_pins start_pin [current_pin]
      (Bfs.visit connections all_pins current_pin st)
    ∧ bfs_measure all_pins (Bfs.visit connections all_pins current_pin st) = n.
Proof.
  set (J := λ st, bfs_invariant connections all_pins start_pin [current_pin] st
                  ∧ bfs_measure all_pins st = n).
  intros HJ. change (J (Bfs.visit connections all_pins current_pin st)).
  unfold Bfs.visit. apply (foldl_invariant J); [done|].
  intros st1 c Hc HJ1. unfold Bfs.visit_connection.
  case_decide as Hcur; [|done].
  apply (foldl_invariant J); [done|].
  intros st2 comp_id Hcomp HJ2. unfold Bfs.visit_component.
  case_decide as Hne; [|done].
  unfold Bfs.visit_pins. apply (foldl_invariant J); [done|].
  intros st3 pin Hpin [Hinv Hm]. unfold Bfs.visit_pin.
  case_decide as Hguard; [|done]. destruct Hguard as [Heq Hnew].
  apply add_pin_invariant; [done|done| |done].
  split; [done|]. exists c. rewrite Heq. done.
Qed.

(** The loop ends within the fuel, with an empty queue and the invariant. *)
Lemma loop_invariant (fuel : nat) : ∀ st,
  bfs_invariant connections all_pins start_pin [] st
  → (bfs_measure all_pins st ≤ fuel)%nat
  → ∃ st', Bfs.loop fuel connections all_pins st = Some st'
           ∧ bfs_invariant connections all_pins start_pin [] st'
           ∧ Bfs.queue st' = [].
Proof.
  induction fuel as [|fuel IH]; intros st Hinv Hfuel.
  - unfold bfs_measure in Hfuel.
    destruct (Bfs.queue st) as [|cur rest] eqn:Hq; simpl in Hfuel; [|lia].
    exists st. simpl. by rewrite Hq.
  - simpl. destruct (Bfs.queue st) as [|cur rest] eqn:Hq.
    { by exists st. }
    set (st0 := {| Bfs.connected_pins := Bfs.connected_pins st;
                   Bfs.processed := Bfs.processed st;
                   Bfs.queue := rest |}).
    destruct Hinv as (Hproc & Hnd & Hstart & Hreach & visited & Hsplit & Hclosed).
    assert (bfs_invariant connections all_pins start_pin [cur] st0) as Hinv0.
    { split; [done|]. split; [done|]. split; [done|]. split; [done|].
      exists visited. split; [|done]. simpl. by rewrite Hsplit, Hq. }
    assert (bfs_measure all_pins st0 = bfs_measure all_pins st - 1)%nat as Hm0.
    { unfold bfs_measure. simpl. rewrite Hq. simpl. lia. }
    destruct (visit_invariant cur st0 _ (conj Hinv0 Hm0)) as [Hinv1 Hm1].
    pose proof (visit_closes connections all_pins cur st0) as Hcur.
    pose proof (visit_grows connections all_pins cur st0) as Hgrow.
    apply IH.
    + destruct Hinv1 as (Hproc1 & Hnd1 & Hstart1 & Hreach1 & visited1 & Hsplit1 & Hclosed1).
      split; [done|]. split; [done|]. split; [done|]. split; [done|].
      exists (visited1 ++ [cur]). split.
      * rewrite Hsplit1. by rewrite <- !app_assoc.
      * intros p [Hp| ->%list_elem_of_singleton]%elem_of_app; [by apply Hclosed1|done].
    + rewrite Hm1. unfold bfs_measure in Hfuel |- *.
      rewrite Hq in Hfuel |- *. simpl in Hfuel |- *. lia.
Qed.
End SearchInvariant.

(** [_find_connected_pins] returns: the loop ends within its fuel. The
    pins it returns have distinct identifiers, include the start pin, are
    reachable from it, and every edge from one of them leads to the
    identifier of one of them. *)
Lemma find_connected_pins_returns (start_pin : Pin.t)
    (connections : list Connection.t) (all_pins : list Pin.t) :
  let result := find_connected_pins start_pin connections all_pins in
  find_connected_pins_opt start_pin connections all_pins = Some result
  ∧ NoDup (Pin.pin_id <$> result)
  ∧ start_pin ∈ result
  ∧ (∀ q, q ∈ result → rtc (pin_step connections all_pins) start_pin q)
  ∧ (∀ p q, p ∈ result → pin_step connections all_pins p q
            → Pin.pin_id q ∈ pin_ids result).
Proof.
  unfold find_connected_pins, find_connected_pins_opt.
  destruct (loop_invariant connections all_pins start_pin (S (length all_pins))
              (Bfs.init start_pin))
    as (st & Hloop & (Hproc & Hnd & Hstart & Hreach & visited & Hsplit & Hclosed) & Hq).
  - split; [|split; [|split; [|split]]]; simpl.
    + unfold pin_ids. simpl. set_solver.
    + apply NoDup_singleton.
    + left.
    + intros q ->%list_elem_of_singleton. done.
    + exists []. split; [done|]. intros p Hp. by apply not_elem_of_nil in Hp.
  - unfold bfs_measure. simpl.
    pose proof (size_pin_ids all_pins).
    assert (size (pin_ids all_pins ∖ {[Pin.pin_id start_pin]})
            ≤ size (pin_ids all_pins))%nat by (apply subseteq_size; set_solver).
    lia.
  - rewrite Hloop. simpl. split; [done|]. split; [done|]. split; [done|].
    split; [done|]. intros p q Hp Hstep. rewrite <- Hproc.
    apply (Hclosed p); [|done].
    rewrite Hsplit, Hq, !app_nil_r in Hp. done.
Qed.

Section Reachability.
Variable connections : list Connection.t.
Variable pins : list Pin.t.
Hypothesis unique_ids : NoDup (Pin.pin_id <$> pins).

Lemma pin_step_sym (p q : Pin.t) :
  p ∈ pins → pin_step connections pins p q → pin_step connections pins q p.
Proof.
  intros Hp (Hq & c & Hc & Hpc & Hqc & Hne).
  split; [done|]. exists c. done.
Qed.

Lemma reachable_in_pins (p q : Pin.t) :
  p ∈ pins → rtc (pin_step connections pins) p q → q ∈ pins.
Proof.
  intros Hp Hr. induction Hr as [|x y z Hxy _ IH]; [done|].
  apply IH. by destruct Hxy.
Qed.

Lemma reachable_sym (p q : Pin.t) :
  p ∈ pins → rtc (pin_step connections pins) p q
  → rtc (pin_step connections pins) q p.
Proof.
  intros Hp Hr. induction Hr as [|x y z Hxy Hyz IH]; [done|].
  apply rtc_r with y.
  - apply IH. by destruct Hxy.
  - by apply pin_step_sym.
Qed.

(** The search from a pin of the list returns the pins reachable from it. *)
Lemma find_connected_pins_reachable (s q : Pin.t) :
  s ∈ pins
  → q ∈ find_connected_pins s connections pins
    ↔ rtc (pin_step connections pins) s q.
Proof.
  intros Hs.
  destruct (find_connected_pins_returns s connections pins)
    as (_ & Hnd & Hstart & Hreach & Hclosed).
  split; [apply Hreach|].
  intros Hr. revert q Hr.
  apply (rtc_ind_r (λ q, q ∈ find_connected_pins s connections pins)); [done|].
  intros q r Hsq Hqr IH.
  assert (Pin.pin_id r ∈ pin_ids (find_connected_pins s connections pins)) as Hid
    by (by apply (Hclosed q r)).
  apply elem_of_pin_ids in Hid as (r' & Hr' & Heq).
  assert (r' = r) as <-; [|done].
  apply (unique_pin_id pins); [done| |by destruct Hqr|done].
  apply (reachable_in_pins s); [done|]. by apply Hreach.
Qed.

Lemma find_connected_pins_in_pins (s q : Pin.t) :
  s ∈ pins → q ∈ find_connected_pins s connections pins → q ∈ pins.
Proof.
  intros Hs Hq. apply (reachable_in_pins s); [done|].
  by apply find_connected_pins_reachable.
Qed.
End Reachability.

(** ** The node resolver *)

Lemma foldl_union_pin_ids (g : list Pin.t) : ∀ s : gset string,
  foldl (λ s p, s ∪ {[Pin.pin_id p]}) s g = s ∪ pin_ids g.
Proof.
  unfold pin_ids. induction g as [|p g IH]; intros s; simpl.
  - set_solver.
  - rewrite IH. set_solver.
Qed.

Lemma in_node_snoc (groups : list (list Pin.t)) (g : list Pin.t) (i : nat)
    (p : Pin.t) :
  in_node (groups ++ [g]) i p
  ↔ in_node groups i p ∨ (i = length groups ∧ p ∈ g).
Proof.
  unfold in_node. split.
  - intros (g' & Hg' & Hp). apply lookup_snoc_Some in Hg' as [[_ Hg']|[-> ->]].
    + left. by exists g'.
    + by right.
  - intros [(g' & Hg' & Hp)|[-> Hp]].
    + exists g'. split; [|done]. by apply lookup_app_l_Some.
    + exists g. split; [|done]. apply lookup_snoc_Some. by right.
Qed.

Lemma in_node_lt (groups : list (list Pin.t)) (i : nat) (p : Pin.t) :
  in_node groups i p → (i < length groups)%nat.
Proof. intros (g & Hg & _). by eapply lookup_lt_Some. Qed.

Section Resolve.
Variable connections : list Connection.t.
Variable pins : list Pin.t.
Hypothesis unique_ids : NoDup (Pin.pin_id <$> pins).

Lemma resolver_step_invariant (seen : list Pin.t) (st : Resolver.state)
    (pin : Pin.t) :
  resolver_invariant connections pins seen st
  → pin ∈ pins
  → resolver_invariant connections pins (seen ++ [pin])
      (Resolver.step connections pins st pin).
Proof.
  intros (Hproc & Hcount & Hseen & Hnodes & Hdisj) Hpin.
  unfold Resolver.step.
  destruct (decide (Pin.pin_id pin ∈ Resolver.processed_pins st)) as [Hin|Hnew].
  { split; [done|]. split; [done|]. split; [|done].
    intros p [Hp| ->%list_elem_of_singleton]%elem_of_app; [by apply Hseen|done]. }
  destruct (find_connected_pins_returns pin connections pins)
    as (_ & Hnd & Hstart & _ & _).
  set (g := find_connected_pins pin connections pins) in *.
  destruct g as [|p0 g0] eqn:Hg; [by apply not_elem_of_nil in Hstart|].
  rewrite <- Hg in *. clear Hg p0 g0.
  split; [|split; [|split; [|split]]]; simpl.
  - intros id. rewrite foldl_union_pin_ids, elem_of_union, Hproc, fmap_app.
    simpl. setoid_rewrite in_node_snoc. rewrite elem_of_pin_ids.
    rewrite length_fmap. split.
    + intros [(i & p & Hi & Hid)|(p & Hp & Hid)].
      * exists i, p. split; [by left|done].
      * exists (length (Resolver.nodes st)), p. split; [by right|done].
    + intros (i & p & [Hi|[-> Hp]] & Hid).
      * left. by exists i, p.
      * right. by exists p.
  - rewrite length_app. simpl. lia.
  - intros p [Hp| ->%list_elem_of_singleton]%elem_of_app.
    + rewrite foldl_union_pin_ids. apply elem_of_union. left. by apply Hseen.
    + rewrite foldl_union_pin_ids. apply elem_of_union. right.
      apply elem_of_pin_ids. by exists pin.
  - intros i node g' Hi. apply lookup_snoc_Some in Hi as [[_ Hi]|[-> Heq]].
    + by apply Hnodes.
    + injection Heq as <- <-. rewrite Hcount. split; [done|]. by exists pin.
  - intros i j p. rewrite fmap_app. simpl. rewrite !in_node_snoc, length_fmap.
    assert (∀ k, in_node (snd <$> Resolver.nodes st) k p → p ∈ g → False) as Hfresh.
    { intros k (gk & Hgk & Hpk) Hpg.
      apply list_lookup_fmap_Some in Hgk as ([node gk'] & -> & Hk). simpl in *.
      destruct (Hnodes k node gk' Hk) as (_ & s & Hs & ->).
      apply Hnew, Hproc. exists k, pin. split; [|done].
      exists (find_connected_pins s connections pins). split.
      { by rewrite list_lookup_fmap, Hk. }
      apply find_connected_pins_reachable; [done|done|].
      apply find_connected_pins_reachable in Hpk; [|done|done].
      apply find_connected_pins_reachable in Hpg; [|done|done].
      etrans; [exact Hpk|]. by apply reachable_sym. }
    intros [Hi|[-> Hi]] [Hj|[-> Hj]]; [by eapply Hdisj| | |done]; exfalso;
      by eapply Hfresh.
Qed.

Lemma resolver_foldl_invariant (l : list Pin.t) : ∀ seen st,
  resolver_invariant connections pins seen st
  → (∀ p, p ∈ l → p ∈ pins)
  → resolver_invariant connections pins (seen ++ l)
      (foldl (Resolver.step connections pins) st l).
Proof.
  induction l as [|p l IH]; intros seen st Hinv Hl; simpl.
  - by rewrite app_nil_r.
  - replace (seen ++ p :: l) with ((seen ++ [p]) ++ l)
      by (by rewrite <- app_assoc).
    apply IH.
    + apply resolver_step_invariant; [done|]. apply Hl. left.
    + intros q Hq. apply Hl. by right.
Qed.

Lemma resolver_run_invariant :
  resolver_invariant connections pins pins (Resolver.run connections pins).
Proof.
  unfold Resolver.run.
  apply (resolver_foldl_invariant pins [] Resolver.init); [|done].
  split; [|split; [done|split; [|split]]]; simpl.
  - intros id. split; [set_solver|].
    intros (i & p & (g & Hg & _) & _). done.
  - intros p Hp. by apply not_elem_of_nil in Hp.
  - intros i node g Hi. done.
  - intros i j p (g & Hg & _). done.
Qed.
End Resolve.

(** The groups behind the nodes, for a pin list with distinct identifiers:
    every pin is in a group, no pin is in two, a group is the set of pins
    reachable from one of its pins, and the nodes are built from the groups
    in order. *)
Lemma node_groups_spec (connections : list Connection.t) (pins : list Pin.t) :
  NoDup (Pin.pin_id <$> pins)
  → let groups := node_groups connections pins in
    (∀ p, p ∈ pins → ∃ i, in_node groups i p)
    ∧ (∀ i j p, in_node groups i p → in_node groups j p → i = j)
    ∧ (∀ i g, groups !! i = Some g
         → NoDup (Pin.pin_id <$> g)
           ∧ ∃ s, s ∈ pins
                  ∧ ∀ q, q ∈ g ↔ rtc (pin_step connections pins) s q)
    ∧ identify_electrical_nodes connections pins = imap make_node groups.
Proof.
  intros Hnd groups.
  destruct (resolver_run_invariant connections pins Hnd)
    as (Hproc & Hcount & Hseen & Hnodes & Hdisj).
  assert (∀ i g, groups !! i = Some g
            → NoDup (Pin.pin_id <$> g)
              ∧ ∃ s, s ∈ pins
                     ∧ ∀ q, q ∈ g ↔ rtc (pin_step connections pins) s q)
    as Hclass.
  { intros i g Hg. unfold groups, node_groups, electrical_nodes_with_pins in Hg.
    apply list_lookup_fmap_Some in Hg as ([node g'] & -> & Hi). simpl.
    destruct (Hnodes i node g' Hi) as (_ & s & Hs & ->). split.
    - apply find_connected_pins_returns.
    - exists s. split; [done|]. intros q.
      by apply find_connected_pins_reachable. }
  split; [|split; [done|split; [done|]]].
  - intros p Hp. pose proof Hp as Hid.
    apply Hseen, Hproc in Hid as (i & q & Hq & Hid).
    exists i. assert (q = p) as <-; [|done].
    apply (unique_pin_id pins); [done| |done|done].
    destruct Hq as (g & Hg & Hqg).
    destruct (Hclass i g Hg) as (_ & s & Hs & Hiff).
    apply (reachable_in_pins connections pins s); [done|]. by apply Hiff.
  - unfold identify_electrical_nodes, groups, node_groups,
      electrical_nodes_with_pins.
    apply list_eq. intros i.
    rewrite list_lookup_fmap, list_lookup_imap, list_lookup_fmap.
    destruct (Resolver.nodes (Resolver.run connections pins) !! i)
      as [[node g]|] eqn:Hi; simpl; [|done].
    by destruct (Hnodes i node g Hi) as (-> & _).
Qed.

(** C1, as amended. For every list of connections and every list of pins
    with pairwise distinct [pin_id]s, every pin is in exactly one electrical
    node and a node only has pins of the list; sharing a node is reflexive
    on the pins, symmetric and transitive; and the nodes returned are built
    from these groups of pins, one node per group, in order. *)
Theorem electrical_nodes_partition (connections : list Connection.t)
    (pins : list Pin.t) :
  NoDup (Pin.pin_id <$> pins)
  → let groups := node_groups connections pins in
    (∀ p, p ∈ pins → ∃ i, in_node groups i p ∧ ∀ j, in_node groups j p → j = i)
    ∧ (∀ i p, in_node groups i p → p ∈ pins)
    ∧ (∀ p, p ∈ pins → share_node groups p p)
    ∧ (∀ p q, share_node groups p q → share_node groups q p)
    ∧ (∀ p q r, share_node groups p q → share_node groups q r
                → share_node groups p r)
    ∧ identify_electrical_nodes connections pins = imap make_node groups.
Proof.
  intros Hnd groups.
  destruct (node_groups_spec connections pins Hnd)
    as (Hcover & Hdisj & Hclass & Hnodes).
  fold groups in Hcover, Hdisj, Hclass, Hnodes.
  split; [|split; [|split; [|split; [|split]]]].
  - intros p Hp. destruct (Hcover p Hp) as [i Hi]. exists i.
    split; [done|]. intros j Hj. by apply (Hdisj j i p).
  - intros i p (g & Hg & Hp).
    destruct (Hclass i g Hg) as (_ & s & Hs & Hiff).
    apply (reachable_in_pins connections pins s); [done|]. by apply Hiff.
  - intros p Hp. destruct (Hcover p Hp) as [i Hi]. by exists i.
  - intros p q (i & Hp & Hq). by exists i.
  - intros p q r (i & Hp & Hq) (j & Hq' & Hr).
    assert (i = j) as -> by (by apply (Hdisj i j q)). by exists j.
  - done.
Qed.

(** C1, counterexample. Two components with the same identifier give pins
    with the same [pin_id]; the second pin named [R1_pin_0] is then skipped
    as already processed, and it is in no node. *)
Lemma electrical_nodes_partition_counterexample :
  let Ra := {| Component.id := "R1"; Component.bbox := (80, 180, 120, 220)%Z;
               Component.component_type := Some "resistor" |} in
  let Rb := {| Component.id := "R1"; Component.bbox := (280, 180, 320, 220)%Z;
               Component.component_type := Some "resistor" |} in
  let pins := extract_component_pins [Ra; Rb] in
  let p := {| Pin.pin_id := "R1_pin_0"; Pin.component_id := "R1";
              Pin.position := (280, 200)%Z; Pin.pin_number := 1;
              Pin.component_type := "resistor" |} in
  pins !! 2%nat = Some p
  ∧ length (identify_electrical_nodes [] pins) = 2%nat
  ∧ ∀ i, ¬ in_node (node_groups [] pins) i p.
Proof.
  intros Ra Rb pins p.
  split; [reflexivity|]. split; [by vm_compute|].
  intros i (g & Hg & Hp).
  assert (node_groups [] pins
          = [[{| Pin.pin_id := "R1_pin_0"; Pin.component_id := "R1";
                 Pin.position := (80, 200)%Z; Pin.pin_number := 1;
                 Pin.component_type := "resistor" |}];
             [{| Pin.pin_id := "R1_pin_1"; Pin.component_id := "R1";
                 Pin.position := (120, 200)%Z; Pin.pin_number := 2;
                 Pin.component_type := "resistor" |}]]) as Hgroups
    by (by vm_compute).
  rewrite Hgroups in Hg.
  destruct i as [|[|i]]; simpl in Hg; [| |done];
    injection Hg as <-; apply list_elem_of_singleton in Hp; discriminate Hp.
Qed.


(** C1, an instance: the pins of two resistors and the connection of a
    wire between them. *)
Lemma electrical_nodes_partition_witness :
  let pins := extract_component_pins
                [resistor "R1" 80 180 120 220; resistor "R2" 280 180 320 220] in
  let wire := {| Connection.start_point := (125, 200)%Z;
                 Connection.end_point := (275, 200)%Z;
                 Connection.path := [(125, 200)%Z; (275, 200)%Z];
                 Connection.connection_type := "wire";
                 Connection.confidence := 1%float;
                 Connection.connected_components := ["R1"; "R2"] |} in
  NoDup (Pin.pin_id <$> pins)
  ∧ ∀ p q r, share_node (node_groups [wire] pins) p q
             → share_node (node_groups [wire] pins) q r
             → share_node (node_groups [wire] pins) p r.
Proof.
  intros pins wire.
  assert (NoDup (Pin.pin_id <$> pins)) as Hnd.
  { apply (bool_decide_unpack _). vm_compute. reflexivity. }
  split; [exact Hnd|].
  destruct (electrical_nodes_partition [wire] pins Hnd)
    as (_ & _ & _ & _ & Htrans & _).
  exact Htrans.
Defined.

(** ** Two resistors in series *)








